(** * A resizable token bucket: shallow embedding of [token.go]

    The Go package keeps its tokens in a buffered [chan struct{}] and lets a
    single goroutine, [manager], grow or shrink the number of tokens in
    circulation.  The embedding below follows the source function by
    function.  Goroutines are interleaved at the granularity of one [select]
    statement: a [select] is an atomic choice among the communications that
    can proceed, made by an explicit scheduler pick, and it blocks when none
    can.  A call that blocks and is woken up later is the same call issued at
    the later point, so blocked calls leave the state untouched. *)

From Stdlib Require Import ZArith List Bool Lia String.
Import ListNotations.
Open Scope Z_scope.

(** ** Go's [int] (64 bits) *)

Definition min_int : Z := - 2 ^ 63.
Definition max_int : Z := 2 ^ 63 - 1.
Definition is_int (z : Z) : Prop := min_int <= z <= max_int.

(** Two's complement wrap-around of [++] and [--]. *)
Definition wrap (z : Z) : Z := (z - min_int) mod 2 ^ 64 + min_int.

(** ** [context.Context]

    A context is observed through [Done()] and [context.Cause]: the channel
    is closed exactly when a cause has been recorded. *)

Module Ctx.
Definition cause : Type := string.
Definition t : Type := option cause.

Definition background : t := None.

Definition done (c : t) : bool :=
  match c with Some _ => true | None => false end.

(** Cancelling twice keeps the first cause. *)
Definition cancel (k : cause) (c : t) : t :=
  match c with Some _ => c | None => Some k end.
End Ctx.

(** ** Errors *)

Inductive error : Type :=
| ErrNewToken (maxCap len : Z)   (* "incorrect max capacity (%d) and/or length (%d)" *)
| ErrCapacity (c maxCap : Z)     (* "capacity (%d) should be between 0 and maximum (%d)" *)
| ErrCause (k : Ctx.cause).      (* context.Cause of a finished context *)

Definition Cause (c : Ctx.t) : option error := option_map ErrCause c.

(** ** Buffered [chan struct{}]

    The values carry no information, so a channel is its queue length and
    its capacity. *)

Record chan : Type := mkChan { qlen : Z; qcap : Z }.

Definition make_chan (n : Z) : chan := mkChan 0 n.
Definition can_send (c : chan) : bool := qlen c <? qcap c.
Definition can_recv (c : chan) : bool := 0 <? qlen c.
Definition send (c : chan) : chan := mkChan (qlen c + 1) (qcap c).
Definition recv (c : chan) : chan := mkChan (qlen c - 1) (qcap c).

(** ** Blocking calls and [select] *)

Inductive outcome (A : Type) : Type :=
| Blocks
| Returns (a : A).
Arguments Blocks {A}.
Arguments Returns {A} a.

(** [ready] lists the cases whose communication can proceed, in source
    order; the scheduler's [pick] stands for Go's pseudo-random choice. *)
Definition select {A : Type} (ready : list A) (pick : nat) : outcome A :=
  match ready with
  | [] => Blocks
  | a :: _ => Returns (nth (pick mod List.length ready) ready a)
  end.

Definition guard {A : Type} (b : bool) (a : A) : list A :=
  if b then [a] else [].

(** ** The [Token] struct

    [cap] is an unbuffered channel and holds no data of its own: a send on
    it happens together with the manager's receive (see [SetCapacity]). *)

Record Token : Type := mkToken {
  ctx : Ctx.t;
  buf : chan;
  maxCapacity : Z;
  length : Z
}.

Definition with_buf (t : Token) (b : chan) : Token :=
  mkToken (ctx t) b (maxCapacity t) (length t).
Definition with_length (t : Token) (n : Z) : Token :=
  mkToken (ctx t) (buf t) (maxCapacity t) n.
Definition with_ctx (t : Token) (c : Ctx.t) : Token :=
  mkToken c (buf t) (maxCapacity t) (length t).

(** ** The manager goroutine's locals *)

(** A channel variable of [manager] is either [nil] or [t.buf]. *)
Inductive chan_var : Type := Nil | Buf.

Record Manager : Type := mkManager {
  in_ : chan_var;
  out_ : chan_var;
  target : Z
}.

(** The bucket together with its manager; [None] once [manager] returned. *)
Record System : Type := mkSystem {
  tok : Token;
  mgr : option Manager
}.

(** ** [NewToken] *)

(** The loop [for i := 0; i < t.length; i++ { t.buf <- struct{}{} }]: a plain
    send blocks for good when the buffer is full, nobody receives yet. *)
Fixpoint fill (n : nat) (b : chan) : outcome chan :=
  match n with
  | O => Returns b
  | S n' => if can_send b then fill n' (send b) else Blocks
  end.

(** [manager] starts with [in] and [out] nil and [target := t.length]. *)
Definition manager_start (t : Token) : Manager := mkManager Nil Nil (length t).

Definition NewToken (c : Ctx.t) (maxCap len : Z) : outcome (System + error) :=
  if (maxCap <=? 0) || (len <? 0) || (maxCap <? len) then
    Returns (inr (ErrNewToken maxCap len))
  else
    match fill (Z.to_nat len) (make_chan maxCap) with
    | Blocks => Blocks
    | Returns b =>
        let t := mkToken c b maxCap len in
        Returns (inl (mkSystem t (Some (manager_start t))))
    end.

(** ** [Take] and [Release] *)

Inductive take_case : Type := TakeCtxDone | TakeTokDone | TakeRecv.

Definition Take_ready (t : Token) (c : Ctx.t) : list take_case :=
  guard (Ctx.done c) TakeCtxDone ++
  guard (Ctx.done (ctx t)) TakeTokDone ++
  guard (can_recv (buf t)) TakeRecv.

Definition Take (t : Token) (c : Ctx.t) (pick : nat)
  : outcome (Token * option error) :=
  match select (Take_ready t c) pick with
  | Blocks => Blocks
  | Returns TakeCtxDone => Returns (t, Cause c)
  | Returns TakeTokDone => Returns (t, Cause (ctx t))
  | Returns TakeRecv => Returns (with_buf t (recv (buf t)), None)
  end.

Inductive release_case : Type := RelCtxDone | RelTokDone | RelSend.

Definition Release_ready (t : Token) (c : Ctx.t) : list release_case :=
  guard (Ctx.done c) RelCtxDone ++
  guard (Ctx.done (ctx t)) RelTokDone ++
  guard (can_send (buf t)) RelSend.

Definition Release (t : Token) (c : Ctx.t) (pick : nat)
  : outcome (Token * option error) :=
  match select (Release_ready t c) pick with
  | Blocks => Blocks
  | Returns RelCtxDone => Returns (t, Cause c)
  | Returns RelTokDone => Returns (t, Cause (ctx t))
  | Returns RelSend => Returns (with_buf t (send (buf t)), None)
  end.

(** ** [manager] *)

Inductive manager_case : Type :=
| MDone              (* case <-t.ctx.Done() *)
| MIn                (* case in <- struct{}{} *)
| MOut               (* case <-out *)
| MCap (c : Z).      (* case target = <-t.cap *)

(** A send or receive on a nil channel never proceeds.  [offer] is the value
    a [SetCapacity] caller is sending on [t.cap], if there is one. *)
Definition manager_ready (t : Token) (m : Manager) (offer : option Z)
  : list manager_case :=
  guard (Ctx.done (ctx t)) MDone ++
  guard (match in_ m with Buf => can_send (buf t) | Nil => false end) MIn ++
  guard (match out_ m with Buf => can_recv (buf t) | Nil => false end) MOut ++
  match offer with Some c => [MCap c] | None => [] end.

(** The [if]/[else if]/[else] after the [select]. *)
Definition reconcile (t : Token) (tgt : Z) : Manager :=
  if length t <? tgt then mkManager Buf Nil tgt
  else if tgt <? length t then mkManager Nil Buf tgt
  else mkManager Nil Nil tgt.

(** One iteration of the loop once the [select] has chosen [c]. *)
Definition manager_fire (t : Token) (m : Manager) (c : manager_case)
  : Token * option Manager :=
  match c with
  | MDone => (t, None)
  | MIn =>
      let t' := with_length (with_buf t (send (buf t))) (wrap (length t + 1)) in
      (t', Some (reconcile t' (target m)))
  | MOut =>
      let t' := with_length (with_buf t (recv (buf t))) (wrap (length t - 1)) in
      (t', Some (reconcile t' (target m)))
  | MCap c => (t, Some (reconcile t c))
  end.

Definition manager_iter (t : Token) (m : Manager) (offer : option Z)
  (pick : nat) : outcome (Token * option Manager) :=
  match select (manager_ready t m offer) pick with
  | Blocks => Blocks
  | Returns c => Returns (manager_fire t m c)
  end.

(** ** [SetCapacity] *)

Inductive setcap_case : Type := SetCtxDone | SetTokDone | SetSend.

(** The send on the unbuffered [t.cap] can proceed when the manager is in
    its loop, where every [select] has the receiving case. *)
Definition SetCapacity_ready (s : System) (c : Ctx.t) : list setcap_case :=
  guard (Ctx.done c) SetCtxDone ++
  guard (Ctx.done (ctx (tok s))) SetTokDone ++
  guard (match mgr s with Some _ => true | None => false end) SetSend.

Definition SetCapacity (s : System) (cc : Ctx.t) (c : Z) (pick : nat)
  : outcome (System * option error) :=
  if (maxCapacity (tok s) <? c) || (c <? 0) then
    Returns (s, Some (ErrCapacity c (maxCapacity (tok s))))
  else
    match select (SetCapacity_ready s cc) pick with
    | Blocks => Blocks
    | Returns SetCtxDone => Returns (s, Cause cc)
    | Returns SetTokDone => Returns (s, Cause (ctx (tok s)))
    | Returns SetSend =>
        match mgr s with
        | Some m =>
            let (t', m') := manager_fire (tok s) m (MCap c) in
            Returns (mkSystem t' m', None)
        | None => Blocks
        end
    end.

(** ** Interleavings

    What can happen to a bucket: a caller's [Take], [Release] or
    [SetCapacity] gets through its [select] (or stays blocked), the manager
    runs one iteration on its own, or the lifecycle context is cancelled. *)

Inductive event : Type :=
| ETake (c : Ctx.t) (pick : nat)
| ERelease (c : Ctx.t) (pick : nat)
| ESetCapacity (cc : Ctx.t) (c : Z) (pick : nat)
| EManager (pick : nat)
| ECancel (k : Ctx.cause).

Definition on_token (s : System) (r : outcome (Token * option error)) : System :=
  match r with
  | Blocks => s
  | Returns (t', _) => mkSystem t' (mgr s)
  end.

Definition manager_step (s : System) (pick : nat) : System :=
  match mgr s with
  | None => s
  | Some m =>
      match manager_iter (tok s) m None pick with
      | Blocks => s
      | Returns (t', m') => mkSystem t' m'
      end
  end.

Definition step (s : System) (e : event) : System :=
  match e with
  | ETake c p => on_token s (Take (tok s) c p)
  | ERelease c p => on_token s (Release (tok s) c p)
  | ESetCapacity cc c p =>
      match SetCapacity s cc c p with
      | Blocks => s
      | Returns (s', _) => s'
      end
  | EManager p => manager_step s p
  | ECancel k => mkSystem (with_ctx (tok s) (Ctx.cancel k (ctx (tok s)))) (mgr s)
  end.

Definition run (es : list event) (s : System) : System := fold_left step es s.

(** Callers that only take and release, each call required to return nil. *)
Inductive client_op : Type :=
| OpTake (c : Ctx.t) (pick : nat)
| OpRelease (c : Ctx.t) (pick : nat).

Definition is_take (o : client_op) : bool :=
  match o with OpTake _ _ => true | OpRelease _ _ => false end.

Definition client_call (t : Token) (o : client_op) : outcome (Token * option error) :=
  match o with
  | OpTake c p => Take t c p
  | OpRelease c p => Release t c p
  end.

Fixpoint all_succeed (ops : list client_op) (t : Token) : option Token :=
  match ops with
  | [] => Some t
  | o :: ops' =>
      match client_call t o with
      | Returns (t', None) => all_succeed ops' t'
      | _ => None
      end
  end.

Definition takes (ops : list client_op) : Z :=
  Z.of_nat (List.length (filter is_take ops)).
Definition releases (ops : list client_op) : Z :=
  Z.of_nat (List.length (filter (fun o => negb (is_take o)) ops)).

(** The manager left alone: [picks] are the scheduler's choices for its
    successive iterations. *)
Definition manager_alone (picks : list nat) (s : System) : System :=
  fold_left manager_step picks s.

(** ** The invariant of the bucket *)

Record Inv (s : System) : Prop := mkInv {
  inv_max : 0 < maxCapacity (tok s) <= max_int;
  inv_cap : qcap (buf (tok s)) = maxCapacity (tok s);
  inv_len : 0 <= length (tok s) <= maxCapacity (tok s);
  inv_buf : 0 <= qlen (buf (tok s)) <= qcap (buf (tok s));
  inv_mgr : forall m, mgr s = Some m ->
            0 <= target m <= maxCapacity (tok s) /\
            m = reconcile (tok s) (target m)
}.

(** The three states of the loop, read off [in] and [out]. *)
Definition Growing (m : Manager) : Prop := in_ m = Buf /\ out_ m = Nil.
Definition Shrinking (m : Manager) : Prop := in_ m = Nil /\ out_ m = Buf.
Definition Steady (m : Manager) : Prop := in_ m = Nil /\ out_ m = Nil.

(** [Take] calls in a row, each with its context and scheduler pick. *)
Definition take_calls (cs : list (Ctx.t * nat)) : list client_op :=
  map (fun x => OpTake (fst x) (snd x)) cs.

(** The errors built with [fmt.Errorf] by the argument checks, as opposed to
    the causes of finished contexts. *)
Definition is_validation (e : error) : bool :=
  match e with
  | ErrNewToken _ _ | ErrCapacity _ _ => true
  | ErrCause _ => false
  end.

(** States reached from a successful [NewToken]. *)
Definition reachable (s : System) : Prop :=
  exists c maxCap len s0 es,
    is_int maxCap /\ NewToken c maxCap len = Returns (inl s0) /\ s = run es s0.

(** ** The specification's state machine *)

(** The three-state machine in the words of the specification, to be
    compared with the loop of [manager]. *)
Module Spec.
Inductive state : Type := growing | shrinking | steady.

(** The state is chosen by comparing [target] to [length]. *)
Definition state_of (target length : Z) : state :=
  if length <? target then growing
  else if target <? length then shrinking
  else steady.

Record bucket : Type := mkBucket {
  available : Z;
  capacity : Z;
  length : Z;
  target : Z;
  terminated : bool
}.

Inductive action : Type :=
| insert | remove | new_target (n : Z) | terminate.

(** What an iteration is willing to do; [incoming] is a target somebody
    is handing over. *)
Definition offers (b : bucket) (incoming : option Z) : list action :=
  guard (terminated b) terminate ++
  match state_of (target b) (length b) with
  | growing => guard (available b <? capacity b) insert
  | shrinking => guard (0 <? available b) remove
  | steady => []
  end ++
  match incoming with Some n => [new_target n] | None => [] end.

(** The effect of each action; [None] when the loop has ended. *)
Definition perform (b : bucket) (a : action) : option bucket :=
  match a with
  | insert =>
      Some (mkBucket (available b + 1) (capacity b) (length b + 1)
                     (target b) (terminated b))
  | remove =>
      Some (mkBucket (available b - 1) (capacity b) (length b - 1)
                     (target b) (terminated b))
  | new_target n =>
      Some (mkBucket (available b) (capacity b) (length b) n (terminated b))
  | terminate => None
  end.
End Spec.

(** The state the loop is in, read off its channel variables. *)
Definition mode (m : Manager) : option Spec.state :=
  match in_ m, out_ m with
  | Buf, Nil => Some Spec.growing
  | Nil, Buf => Some Spec.shrinking
  | Nil, Nil => Some Spec.steady
  | Buf, Buf => None
  end.

Definition action_of (c : manager_case) : Spec.action :=
  match c with
  | MDone => Spec.terminate
  | MIn => Spec.insert
  | MOut => Spec.remove
  | MCap n => Spec.new_target n
  end.

Definition abstract (t : Token) (m : Manager) : Spec.bucket :=
  Spec.mkBucket (qlen (buf t)) (qcap (buf t)) (length t) (target m)
                (Ctx.done (ctx t)).

Definition abstract_result (r : Token * option Manager) : option Spec.bucket :=
  match snd r with
  | Some m' => Some (abstract (fst r) m')
  | None => None
  end.

Definition outcome_map {A B : Type} (f : A -> B) (o : outcome A) : outcome B :=
  match o with
  | Blocks => Blocks
  | Returns a => Returns (f a)
  end.

(** One iteration of the specification's machine under the same scheduler. *)
Definition spec_iteration (b : Spec.bucket) (incoming : option Z) (pick : nat)
  : outcome (option Spec.bucket) :=
  outcome_map (Spec.perform b) (select (Spec.offers b incoming) pick).

(** ** Tokens held by callers *)

(** [length] counts the markers the manager has put into circulation and
    [buf] holds those not taken, so the difference is what callers hold. *)
Definition outstanding (t : Token) : Z := length t - qlen (buf t).

(** The events that are calls of [Take] or [Release]. *)
Definition is_client (e : event) : bool :=
  match e with
  | ETake _ _ | ERelease _ _ => true
  | _ => false
  end.

(** The bucket once the manager has made [length] equal to the target [n],
    every insertion or removal on the way having gone through [buf]. *)
Definition converged (t : Token) (n : Z) : System :=
  mkSystem
    (mkToken (ctx t) (mkChan (qlen (buf t) + (n - length t)) (qcap (buf t)))
             (maxCapacity t) n)
    (Some (mkManager Nil Nil n)).

(** What an event adds to the tokens held by callers: one for a [Take]
    that returns nil, minus one for a [Release] that returns nil. *)
Definition taken_by (s : System) (e : event) : Z :=
  match e with
  | ETake c p =>
      match Take (tok s) c p with Returns (_, None) => 1 | _ => 0 end
  | ERelease c p =>
      match Release (tok s) c p with Returns (_, None) => -1 | _ => 0 end
  | _ => 0
  end.

Fixpoint net_taken (es : list event) (s : System) : Z :=
  match es with
  | [] => 0
  | e :: es' => taken_by s e + net_taken es' (step s e)
  end.

(** ** Sanity checks on concrete buckets *)

Example NewToken_10_5 :
  NewToken Ctx.background 10 5 =
  Returns (inl (mkSystem (mkToken None (mkChan 5 10) 10 5)
                         (Some (mkManager Nil Nil 5)))).
Proof. reflexivity. Qed.

Example fill_can_block : fill 3 (make_chan 2) = Blocks.
Proof. reflexivity. Qed.

Example resize_then_grow :
  let s0 := mkSystem (mkToken None (mkChan 0 10) 10 5) (Some (mkManager Nil Nil 5)) in
  run [ESetCapacity None 7 0; EManager 0; EManager 0; EManager 0] s0 =
  mkSystem (mkToken None (mkChan 2 10) 10 7) (Some (mkManager Nil Nil 7)).
Proof. reflexivity. Qed.

Example resize_then_shrink_waits :
  let s0 := mkSystem (mkToken None (mkChan 1 10) 10 5) (Some (mkManager Nil Nil 5)) in
  run [ESetCapacity None 3 0; EManager 0; EManager 0] s0 =
  mkSystem (mkToken None (mkChan 0 10) 10 4) (Some (mkManager Nil Buf 3)).
Proof. reflexivity. Qed.

(** ** Basic facts about [wrap], [select] and channels *)

Lemma wrap_id (z : Z) : is_int z -> wrap z = z.
Proof.
  unfold is_int, wrap, min_int, max_int. intros H.
  rewrite Z.mod_small; lia.
Qed.

Lemma In_guard {A : Type} (b : bool) (x a : A) :
  In a (guard b x) <-> b = true /\ a = x.
Proof.
  destruct b; simpl; split; intros H.
  - destruct H as [H | []]. auto.
  - destruct H as [_ H]. auto.
  - destruct H.
  - destruct H as [H _]. discriminate.
Qed.

Lemma select_spec {A : Type} (l : list A) (pick : nat) :
  (l = [] /\ select l pick = Blocks) \/
  (exists a, In a l /\ select l pick = Returns a).
Proof.
  destruct l as [| x l]; [left; auto | right].
  exists (nth (pick mod List.length (x :: l)) (x :: l) x). split; [| reflexivity].
  apply nth_In. apply Nat.mod_upper_bound. simpl. discriminate.
Qed.

Lemma select_one {A : Type} (a : A) (pick : nat) : select [a] pick = Returns a.
Proof.
  destruct (select_spec [a] pick) as [[H _] | [x [[<- | []] H]]];
    [discriminate | exact H].
Qed.

(** Every ready case can be chosen by some scheduler pick. *)
Lemma select_any {A : Type} (l : list A) (a : A) :
  In a l -> exists pick, select l pick = Returns a.
Proof.
  intros H. destruct (In_nth l a a H) as [n [Hn Hnth]].
  exists n. destruct l as [| x l]; [destruct H |].
  unfold select. rewrite Nat.mod_small by exact Hn.
  rewrite (nth_indep _ x a Hn). now rewrite Hnth.
Qed.

Lemma fill_room (n : nat) (b : chan) :
  qlen b + Z.of_nat n <= qcap b ->
  fill n b = Returns (mkChan (qlen b + Z.of_nat n) (qcap b)).
Proof.
  revert b. induction n as [| n IH]; intros [l c] H; simpl in *.
  - now rewrite Z.add_0_r.
  - unfold can_send. simpl.
    destruct (Z.ltb_spec l c) as [_ | Hge]; [| lia].
    rewrite IH; simpl; [| lia]. f_equal. f_equal. lia.
Qed.

Lemma fill_full (n : nat) (b : chan) :
  qcap b < qlen b + Z.of_nat n -> qlen b <= qcap b -> fill n b = Blocks.
Proof.
  revert b. induction n as [| n IH]; intros [l c] H Hle; simpl in *; [lia |].
  unfold can_send. simpl.
  destruct (Z.ltb_spec l c) as [Hlt | _]; [| reflexivity].
  apply IH; simpl; lia.
Qed.

(** Case analysis on the three [select]s of the callers. *)
Lemma Take_cases (t : Token) (c : Ctx.t) (pick : nat) :
  (Take t c pick = Blocks /\ Ctx.done c = false /\ Ctx.done (ctx t) = false /\
   can_recv (buf t) = false) \/
  (Take t c pick = Returns (t, Cause c) /\ Ctx.done c = true) \/
  (Take t c pick = Returns (t, Cause (ctx t)) /\ Ctx.done (ctx t) = true) \/
  (Take t c pick = Returns (with_buf t (recv (buf t)), None) /\
   can_recv (buf t) = true).
Proof.
  unfold Take.
  destruct (select_spec (Take_ready t c) pick) as [[Hnil ->] | [a [Hin ->]]].
  - left. unfold Take_ready, guard in Hnil.
    destruct (Ctx.done c), (Ctx.done (ctx t)), (can_recv (buf t));
      try discriminate; auto.
  - right. unfold Take_ready in Hin. rewrite !in_app_iff, !In_guard in Hin.
    destruct Hin as [[H ->] | [[H ->] | [H ->]]]; auto.
Qed.

Lemma Release_cases (t : Token) (c : Ctx.t) (pick : nat) :
  (Release t c pick = Blocks /\ Ctx.done c = false /\ Ctx.done (ctx t) = false /\
   can_send (buf t) = false) \/
  (Release t c pick = Returns (t, Cause c) /\ Ctx.done c = true) \/
  (Release t c pick = Returns (t, Cause (ctx t)) /\ Ctx.done (ctx t) = true) \/
  (Release t c pick = Returns (with_buf t (send (buf t)), None) /\
   can_send (buf t) = true).
Proof.
  unfold Release.
  destruct (select_spec (Release_ready t c) pick) as [[Hnil ->] | [a [Hin ->]]].
  - left. unfold Release_ready, guard in Hnil.
    destruct (Ctx.done c), (Ctx.done (ctx t)), (can_send (buf t));
      try discriminate; auto.
  - right. unfold Release_ready in Hin. rewrite !in_app_iff, !In_guard in Hin.
    destruct Hin as [[H ->] | [[H ->] | [H ->]]]; auto.
Qed.

Lemma Cause_done (c : Ctx.t) : Ctx.done c = true -> Cause c <> None.
Proof. destruct c; simpl; [discriminate | discriminate]. Qed.

(** The manager's [select], with or without a sender on [t.cap]. *)
Lemma manager_ready_In (t : Token) (m : Manager) (offer : option Z)
  (c : manager_case) :
  In c (manager_ready t m offer) <->
  (c = MDone /\ Ctx.done (ctx t) = true) \/
  (c = MIn /\ in_ m = Buf /\ can_send (buf t) = true) \/
  (c = MOut /\ out_ m = Buf /\ can_recv (buf t) = true) \/
  (exists n, c = MCap n /\ offer = Some n).
Proof.
  unfold manager_ready. rewrite !in_app_iff, !In_guard. split.
  - intros [[H ->] | [[H ->] | [[H ->] | H]]].
    + auto.
    + right; left. destruct (in_ m); [discriminate | auto].
    + right; right; left. destruct (out_ m); [discriminate | auto].
    + right; right; right. destruct offer as [n |]; [| destruct H].
      destruct H as [<- | []]. eauto.
  - intros [[-> H] | [[-> [Hi H]] | [[-> [Ho H]] | [n [-> ->]]]]].
    + auto.
    + right; left. rewrite Hi. auto.
    + right; right; left. rewrite Ho. auto.
    + right; right; right. simpl. auto.
Qed.

(** ** Preservation of the invariant *)

Lemma reconcile_target (t : Token) (n : Z) : target (reconcile t n) = n.
Proof.
  unfold reconcile.
  destruct (length t <? n); [reflexivity |].
  destruct (n <? length t); reflexivity.
Qed.

Lemma reconcile_states (t : Token) (n : Z) :
  (length t < n /\ Growing (reconcile t n)) \/
  (n < length t /\ Shrinking (reconcile t n)) \/
  (n = length t /\ Steady (reconcile t n)).
Proof.
  unfold reconcile, Growing, Shrinking, Steady.
  destruct (Z.ltb_spec (length t) n) as [H | H]; [left; auto |].
  destruct (Z.ltb_spec n (length t)) as [H' | H']; [right; left; auto |].
  right; right. simpl. split; [lia | auto].
Qed.

Lemma Inv_NewToken (c : Ctx.t) (maxCap len : Z) (s : System) :
  is_int maxCap -> NewToken c maxCap len = Returns (inl s) ->
  Inv s /\ maxCapacity (tok s) = maxCap /\ length (tok s) = len /\
  qlen (buf (tok s)) = len /\ ctx (tok s) = c /\
  mgr s = Some (mkManager Nil Nil len).
Proof.
  intros [_ Hmax] H. unfold NewToken in H.
  destruct (Z.leb_spec maxCap 0) as [? | Hpos]; [discriminate |].
  destruct (Z.ltb_spec len 0) as [? | Hlen]; [discriminate |].
  destruct (Z.ltb_spec maxCap len) as [? | Hle]; [discriminate |].
  simpl in H. rewrite fill_room in H by (simpl; lia).
  simpl in H. rewrite Z2Nat.id in H by lia.
  injection H as <-. simpl.
  split; [| repeat split].
  split; simpl; try lia.
  intros m [= <-]. unfold reconcile, manager_start. simpl.
  rewrite Z.ltb_irrefl. split; [lia | reflexivity].
Qed.

Lemma Inv_on_buf (s : System) (b : chan) :
  Inv s -> qcap b = qcap (buf (tok s)) -> 0 <= qlen b <= qcap b ->
  Inv (mkSystem (with_buf (tok s) b) (mgr s)).
Proof.
  intros [H1 H2 H3 H4 H5] Hc Hl. split; simpl; try assumption.
  congruence.
Qed.

Lemma Inv_Take (s : System) (c : Ctx.t) (pick : nat) :
  Inv s -> Inv (on_token s (Take (tok s) c pick)).
Proof.
  intros HI.
  destruct (Take_cases (tok s) c pick)
    as [[-> _] | [[-> _] | [[-> _] | [-> H]]]]; simpl;
    try (destruct s; exact HI).
  apply Inv_on_buf; [exact HI | reflexivity |].
  unfold can_recv in H. apply Z.ltb_lt in H.
  pose proof (inv_buf s HI). simpl. lia.
Qed.

Lemma Inv_Release (s : System) (c : Ctx.t) (pick : nat) :
  Inv s -> Inv (on_token s (Release (tok s) c pick)).
Proof.
  intros HI.
  destruct (Release_cases (tok s) c pick)
    as [[-> _] | [[-> _] | [[-> _] | [-> H]]]]; simpl;
    try (destruct s; exact HI).
  apply Inv_on_buf; [exact HI | reflexivity |].
  unfold can_send in H. apply Z.ltb_lt in H.
  pose proof (inv_buf s HI). simpl. lia.
Qed.

(** What one fired case of the manager does to an invariant state. *)
Lemma Inv_manager_fire (s : System) (m : Manager) (offer : option Z)
  (c : manager_case) :
  Inv s -> mgr s = Some m ->
  (forall n, offer = Some n -> 0 <= n <= maxCapacity (tok s)) ->
  In c (manager_ready (tok s) m offer) ->
  Inv (mkSystem (fst (manager_fire (tok s) m c)) (snd (manager_fire (tok s) m c))).
Proof.
  intros HI Hm Hoff Hin.
  destruct HI as [H1 H2 H3 H4 H5].
  destruct (H5 m Hm) as [Ht Hr].
  apply manager_ready_In in Hin.
  destruct Hin as [[-> _] | [[-> [Hi Hs]] | [[-> [Ho Hs]] | [n [-> ->]]]]]; simpl.
  - split; simpl; try assumption. intros ? [=].
  - assert (Hlt : length (tok s) < target m).
    { destruct (reconcile_states (tok s) (target m))
        as [[? _] | [[_ [Hx _]] | [_ [Hx _]]]]; [assumption | |];
        rewrite <- Hr in Hx; congruence. }
    unfold can_send in Hs. apply Z.ltb_lt in Hs.
    rewrite wrap_id by (unfold is_int, min_int; lia).
    split; simpl; try assumption; try lia.
    intros m' [= <-]. rewrite reconcile_target. split; [lia | reflexivity].
  - assert (Hlt : target m < length (tok s)).
    { destruct (reconcile_states (tok s) (target m))
        as [[_ [_ Hx]] | [[? _] | [_ [_ Hx]]]]; [| assumption |];
        rewrite <- Hr in Hx; congruence. }
    unfold can_recv in Hs. apply Z.ltb_lt in Hs.
    rewrite wrap_id by (unfold is_int, min_int; lia).
    split; simpl; try assumption; try lia.
    intros m' [= <-]. rewrite reconcile_target. split; [lia | reflexivity].
  - specialize (Hoff n eq_refl).
    split; simpl; try assumption.
    intros m' [= <-]. rewrite reconcile_target. split; [lia | reflexivity].
Qed.

Lemma Inv_manager_step (s : System) (pick : nat) :
  Inv s -> Inv (manager_step s pick).
Proof.
  intros HI. unfold manager_step.
  destruct (mgr s) as [m |] eqn:Hm; [| exact HI].
  unfold manager_iter.
  destruct (select_spec (manager_ready (tok s) m None) pick)
    as [[_ ->] | [c [Hin ->]]]; [exact HI |].
  pose proof (Inv_manager_fire s m None c HI Hm) as H.
  destruct (manager_fire (tok s) m c) as [t' m'].
  apply H; [discriminate | exact Hin].
Qed.

Lemma SetCapacity_cases (s : System) (cc : Ctx.t) (c : Z) (pick : nat) :
  ((c < 0 \/ maxCapacity (tok s) < c) /\
   SetCapacity s cc c pick =
   Returns (s, Some (ErrCapacity c (maxCapacity (tok s))))) \/
  (0 <= c <= maxCapacity (tok s) /\
   ((SetCapacity s cc c pick = Blocks /\ Ctx.done cc = false /\
     Ctx.done (ctx (tok s)) = false /\ mgr s = None) \/
    (SetCapacity s cc c pick = Returns (s, Cause cc) /\ Ctx.done cc = true) \/
    (SetCapacity s cc c pick = Returns (s, Cause (ctx (tok s))) /\
     Ctx.done (ctx (tok s)) = true) \/
    (exists m, mgr s = Some m /\
       SetCapacity s cc c pick =
       Returns (mkSystem (tok s) (Some (reconcile (tok s) c)), None)))).
Proof.
  unfold SetCapacity.
  destruct (Z.ltb_spec (maxCapacity (tok s)) c) as [Hhi | Hhi];
    [left; split; [lia | reflexivity] |].
  destruct (Z.ltb_spec c 0) as [Hlo | Hlo];
    [left; split; [lia | reflexivity] |].
  right. split; [lia |]. simpl.
  destruct (select_spec (SetCapacity_ready s cc) pick) as [[Hnil ->] | [a [Hin ->]]].
  - left. unfold SetCapacity_ready, guard in Hnil.
    destruct (Ctx.done cc), (Ctx.done (ctx (tok s))), (mgr s);
      try discriminate; auto.
  - right. unfold SetCapacity_ready in Hin. rewrite !in_app_iff, !In_guard in Hin.
    destruct Hin as [[H ->] | [[H ->] | [H ->]]]; auto.
    destruct (mgr s) as [m |]; [| discriminate].
    right; right. exists m. split; reflexivity.
Qed.

Lemma Inv_step (s : System) (e : event) : Inv s -> Inv (step s e).
Proof.
  intros HI. destruct e as [c p | c p | cc c p | p | k]; simpl.
  - now apply Inv_Take.
  - now apply Inv_Release.
  - destruct (SetCapacity_cases s cc c p)
      as [[_ ->] | [Hc [[-> _] | [[-> _] | [[-> _] | [m [Hm ->]]]]]]];
      try exact HI.
    pose proof (Inv_manager_fire s m (Some c) (MCap c) HI Hm) as H.
    simpl in H. apply H.
    + intros n [= <-]. exact Hc.
    + apply manager_ready_In. right; right; right. eauto.
  - now apply Inv_manager_step.
  - destruct HI as [H1 H2 H3 H4 H5]. split; simpl; assumption.
Qed.

Lemma maxCapacity_step (s : System) (e : event) :
  maxCapacity (tok (step s e)) = maxCapacity (tok s).
Proof.
  destruct e as [c p | c p | cc c p | p | k]; simpl.
  - destruct (Take_cases (tok s) c p)
      as [[-> _] | [[-> _] | [[-> _] | [-> H]]]]; reflexivity.
  - destruct (Release_cases (tok s) c p)
      as [[-> _] | [[-> _] | [[-> _] | [-> H]]]]; reflexivity.
  - destruct (SetCapacity_cases s cc c p)
      as [[_ ->] | [Hc [[-> _] | [[-> _] | [[-> _] | [m [Hm ->]]]]]]];
      reflexivity.
  - unfold manager_step. destruct (mgr s) as [m |]; [| reflexivity].
    unfold manager_iter.
    destruct (select (manager_ready (tok s) m None) p) as [| [| | | n]];
      reflexivity.
  - reflexivity.
Qed.

Lemma Inv_run (es : list event) (s : System) :
  Inv s -> Inv (run es s) /\ maxCapacity (tok (run es s)) = maxCapacity (tok s).
Proof.
  revert s. induction es as [| e es IH]; intros s HI; simpl; [auto |].
  destruct (IH (step s e) (Inv_step s e HI)) as [H1 H2].
  split; [exact H1 |]. rewrite H2. apply maxCapacity_step.
Qed.

(** How [length] can change in one step of an invariant state. *)
Lemma length_step (s : System) (e : event) :
  Inv s ->
  length (tok (step s e)) = length (tok s) \/
  (length (tok (step s e)) = length (tok s) + 1 /\
   exists m, mgr s = Some m /\ Growing m /\
             length (tok s) < target m <= maxCapacity (tok s)) \/
  (length (tok (step s e)) = length (tok s) - 1 /\
   exists m, mgr s = Some m /\ Shrinking m /\
             0 <= target m < length (tok s)).
Proof.
  intros HI. destruct e as [c p | c p | cc c p | p | k]; simpl.
  - left. destruct (Take_cases (tok s) c p)
      as [[-> _] | [[-> _] | [[-> _] | [-> H]]]]; reflexivity.
  - left. destruct (Release_cases (tok s) c p)
      as [[-> _] | [[-> _] | [[-> _] | [-> H]]]]; reflexivity.
  - left. destruct (SetCapacity_cases s cc c p)
      as [[_ ->] | [Hc [[-> _] | [[-> _] | [[-> _] | [m [Hm ->]]]]]]];
      reflexivity.
  - unfold manager_step. destruct (mgr s) as [m |] eqn:Hm; [| left; reflexivity].
    unfold manager_iter.
    destruct (select_spec (manager_ready (tok s) m None) p)
      as [[_ ->] | [c [Hin ->]]]; [left; reflexivity |].
    destruct (inv_mgr s HI m Hm) as [Ht Hr].
    pose proof (inv_len s HI) as Hl. pose proof (inv_max s HI) as Hx.
    apply manager_ready_In in Hin.
    destruct (reconcile_states (tok s) (target m)) as [[Hc Hst] | [[Hc Hst] | [Hc Hst]]];
      rewrite <- Hr in Hst;
      destruct Hin as [[-> _] | [[-> [Hi _]] | [[-> [Ho _]] | [n [_ [=]]]]]];
      simpl; try (left; reflexivity);
      try (destruct Hst as [Hst1 Hst2]; congruence).
    + right; left. rewrite wrap_id by (unfold is_int, min_int; lia).
      split; [reflexivity |]. exists m. repeat split; try apply Hst; lia.
    + right; right. rewrite wrap_id by (unfold is_int, min_int; lia).
      split; [reflexivity |]. exists m. repeat split; try apply Hst; lia.
  - left. reflexivity.
Qed.

(** ** Construction *)

(** C2: [NewToken] returns an error exactly when [maxCap <= 0], [len < 0] or
    [len > maxCap]; on every other pair of integers it returns a bucket. *)
Theorem NewToken_error_iff (c : Ctx.t) (maxCap len : Z) :
  ((exists e, NewToken c maxCap len = Returns (inr e)) <->
   (maxCap <= 0 \/ len < 0 \/ len > maxCap)) /\
  ((exists s, NewToken c maxCap len = Returns (inl s)) <->
   ~ (maxCap <= 0 \/ len < 0 \/ len > maxCap)).
Proof.
  unfold NewToken.
  destruct (Z.leb_spec maxCap 0) as [H1 | H1]; simpl.
  { split; split; eauto; [intros [s [=]] | intros H; exfalso; apply H; auto]. }
  destruct (Z.ltb_spec len 0) as [H2 | H2]; simpl.
  { split; split; eauto; [intros [s [=]] | intros H; exfalso; apply H; auto]. }
  destruct (Z.ltb_spec maxCap len) as [H3 | H3]; simpl.
  { split; split; eauto;
      [intros _; lia | intros [s [=]] | intros H; exfalso; apply H; lia]. }
  rewrite fill_room by (simpl; lia). split; split.
  - intros [e [=]].
  - lia.
  - lia.
  - eauto.
Qed.

Lemma fill_initial (maxCap len : Z) :
  0 <= len <= maxCap ->
  fill (Z.to_nat len) (make_chan maxCap) = Returns (mkChan len maxCap).
Proof.
  intros Hlen. rewrite fill_room by (simpl; lia).
  simpl. now rewrite Z2Nat.id by lia.
Qed.

Lemma NewToken_valid (c : Ctx.t) (maxCap len : Z) :
  0 < maxCap -> 0 <= len <= maxCap ->
  NewToken c maxCap len =
  Returns (inl (mkSystem (mkToken c (mkChan len maxCap) maxCap len)
                         (Some (mkManager Nil Nil len)))).
Proof.
  intros Hpos Hlen. unfold NewToken. rewrite fill_initial by exact Hlen.
  destruct (Z.leb_spec maxCap 0) as [H1 | H1]; [lia |].
  destruct (Z.ltb_spec len 0) as [H2 | H2]; [lia |].
  destruct (Z.ltb_spec maxCap len) as [H3 | H3]; [lia |].
  reflexivity.
Qed.

(** C10: construction never blocks.  For valid arguments every send of the
    pre-population loop finds room, the buffer having capacity exactly
    [maxCap] and [len <= maxCap]; the loop ends with [len] markers queued and
    [NewToken] returns the bucket. *)
Theorem NewToken_never_blocks (c : Ctx.t) (maxCap len : Z) :
  0 < maxCap -> 0 <= len <= maxCap ->
  NewToken c maxCap len <> Blocks /\
  fill (Z.to_nat len) (make_chan maxCap) = Returns (mkChan len maxCap) /\
  (forall i, (i < Z.to_nat len)%nat ->
     exists b, fill i (make_chan maxCap) = Returns b /\ can_send b = true) /\
  NewToken c maxCap len =
  Returns (inl (mkSystem (mkToken c (mkChan len maxCap) maxCap len)
                         (Some (mkManager Nil Nil len)))).
Proof.
  intros Hpos Hlen.
  pose proof (fill_initial maxCap len Hlen) as Hfill.
  pose proof (NewToken_valid c maxCap len Hpos Hlen) as Hnew.
  split; [rewrite Hnew; discriminate |].
  split; [exact Hfill |]. split; [| exact Hnew].
  intros i Hi. rewrite fill_room by (simpl; lia).
  eexists. split; [reflexivity |]. unfold can_send. simpl.
  apply Z.ltb_lt. lia.
Qed.

Lemma NewToken_never_blocks_witness :
  (0 < 4 /\ 0 <= 4 <= 4) /\
  NewToken Ctx.background 4 4 <> Blocks /\
  fill (Z.to_nat 4) (make_chan 4) = Returns (mkChan 4 4).
Proof.
  split; [lia |].
  split; apply (NewToken_never_blocks Ctx.background 4 4); lia.
Defined.

(** ** The bound on [length] *)

(** C1: along every interleaving of calls, manager iterations and
    cancellation that follows a successful [NewToken], [length] stays within
    [0 .. maxCapacity]; a step that changes it adds one in the Growing state,
    where [length < target <= maxCapacity], or removes one in the Shrinking
    state, where [0 <= target < length]. *)
Theorem length_within_capacity (c : Ctx.t) (maxCap len : Z) (s0 : System)
  (es : list event) :
  is_int maxCap ->
  NewToken c maxCap len = Returns (inl s0) ->
  0 <= length (tok (run es s0)) <= maxCap /\
  maxCapacity (tok (run es s0)) = maxCap /\
  forall e,
    length (tok (step (run es s0) e)) = length (tok (run es s0)) \/
    (length (tok (step (run es s0) e)) = length (tok (run es s0)) + 1 /\
     exists m, mgr (run es s0) = Some m /\ Growing m /\
               length (tok (run es s0)) < target m <= maxCap) \/
    (length (tok (step (run es s0) e)) = length (tok (run es s0)) - 1 /\
     exists m, mgr (run es s0) = Some m /\ Shrinking m /\
               0 <= target m < length (tok (run es s0))).
Proof.
  intros Hint Hnew.
  destruct (Inv_NewToken c maxCap len s0 Hint Hnew) as [HI [Hmax _]].
  destruct (Inv_run es s0 HI) as [HI' Hmax'].
  rewrite Hmax in Hmax'.
  pose proof (inv_len _ HI') as Hl. rewrite Hmax' in Hl.
  split; [exact Hl |]. split; [exact Hmax' |].
  intros e. pose proof (length_step _ e HI') as H.
  rewrite Hmax' in H. exact H.
Qed.

Lemma length_within_capacity_witness :
  is_int 10 /\
  NewToken Ctx.background 10 5 =
  Returns (inl (mkSystem (mkToken None (mkChan 5 10) 10 5)
                         (Some (mkManager Nil Nil 5)))) /\
  0 <= length (tok (run [ESetCapacity None 7 0; EManager 0; ETake None 0]
                        (mkSystem (mkToken None (mkChan 5 10) 10 5)
                                  (Some (mkManager Nil Nil 5))))) <= 10.
Proof.
  assert (Hint : is_int 10) by (unfold is_int, min_int, max_int; lia).
  split; [exact Hint |]. split; [reflexivity |].
  apply (length_within_capacity Ctx.background 10 5
           (mkSystem (mkToken None (mkChan 5 10) 10 5) (Some (mkManager Nil Nil 5)))
           [ESetCapacity None 7 0; EManager 0; ETake None 0] Hint).
  reflexivity.
Defined.

(** ** Taking and releasing tokens *)

Lemma Take_live (t : Token) (cc : Ctx.t) (pick : nat) :
  Ctx.done cc = false -> Ctx.done (ctx t) = false ->
  Take t cc pick =
  if can_recv (buf t) then Returns (with_buf t (recv (buf t)), None) else Blocks.
Proof.
  intros Hc Ht. unfold Take, Take_ready. rewrite Hc, Ht.
  unfold guard. cbn [app].
  destruct (can_recv (buf t)); [now rewrite select_one | reflexivity].
Qed.

Lemma Take_nil (t t' : Token) (cc : Ctx.t) (pick : nat) :
  Take t cc pick = Returns (t', None) ->
  t' = with_buf t (recv (buf t)) /\ can_recv (buf t) = true.
Proof.
  intros H.
  destruct (Take_cases t cc pick) as [[E _] | [[E D] | [[E D] | [E D]]]];
    rewrite E in H.
  - discriminate.
  - injection H as _ H. now apply Cause_done in H.
  - injection H as _ H. now apply Cause_done in H.
  - injection H as <-. auto.
Qed.

Lemma Release_nil (t t' : Token) (cc : Ctx.t) (pick : nat) :
  Release t cc pick = Returns (t', None) ->
  t' = with_buf t (send (buf t)) /\ can_send (buf t) = true.
Proof.
  intros H.
  destruct (Release_cases t cc pick) as [[E _] | [[E D] | [[E D] | [E D]]]];
    rewrite E in H.
  - discriminate.
  - injection H as _ H. now apply Cause_done in H.
  - injection H as _ H. now apply Cause_done in H.
  - injection H as <-. auto.
Qed.

Lemma drain (cs : list (Ctx.t * nat)) (t : Token) :
  Ctx.done (ctx t) = false ->
  Forall (fun x => Ctx.done (fst x) = false) cs ->
  Z.of_nat (List.length cs) <= qlen (buf t) ->
  all_succeed (take_calls cs) t =
  Some (with_buf t (mkChan (qlen (buf t) - Z.of_nat (List.length cs)) (qcap (buf t)))).
Proof.
  revert t. induction cs as [| [cc p] cs IH]; intros t Ht Hcs Hlen.
  - simpl. rewrite Z.sub_0_r. now destruct t as [? [? ?] ? ?].
  - inversion Hcs as [| ? ? Hcc Hcs']; subst. simpl in Hcc.
    cbn [take_calls map all_succeed client_call fst snd].
    rewrite (Take_live t cc p Hcc Ht).
    cbn [List.length] in Hlen. rewrite Nat2Z.inj_succ in Hlen.
    unfold can_recv. destruct (Z.ltb_spec 0 (qlen (buf t))) as [_ | Hz]; [| lia].
    fold (take_calls cs). rewrite IH; simpl; try assumption; try lia.
    unfold with_buf. simpl. do 3 f_equal.
    cbn [List.length]. lia.
Qed.

(** C3: after [NewToken] on a valid pair, with nothing cancelled, any [len]
    consecutive [Take] calls all return nil, the manager meanwhile has no
    communication that can proceed, and the next [Take] blocks. *)
Theorem drain_exactly_initial (c : Ctx.t) (maxCap len : Z)
  (cs : list (Ctx.t * nat)) :
  0 < maxCap -> 0 <= len <= maxCap ->
  Ctx.done c = false ->
  Forall (fun x => Ctx.done (fst x) = false) cs ->
  Z.of_nat (List.length cs) = len ->
  exists s t',
    NewToken c maxCap len = Returns (inl s) /\
    qlen (buf (tok s)) = len /\
    (forall m p, mgr s = Some m -> manager_iter (tok s) m None p = Blocks) /\
    all_succeed (take_calls cs) (tok s) = Some t' /\
    qlen (buf t') = 0 /\
    (forall cc p, Ctx.done cc = false -> Take t' cc p = Blocks).
Proof.
  intros Hpos Hlen Hc Hcs Hn.
  pose proof (NewToken_valid c maxCap len Hpos Hlen) as Hnew.
  eexists. eexists. split; [exact Hnew |]. simpl.
  split; [reflexivity |]. split; [| split; [| split]].
  - intros m p [= <-]. unfold manager_iter, manager_ready. simpl.
    now rewrite Hc.
  - apply drain; simpl; [exact Hc | exact Hcs | lia].
  - simpl. lia.
  - intros cc p Hcc. rewrite Take_live by assumption.
    unfold can_recv. simpl. rewrite Hn, Z.sub_diag. reflexivity.
Qed.

Lemma drain_exactly_initial_witness :
  exists s t',
    NewToken Ctx.background 3 2 = Returns (inl s) /\
    qlen (buf (tok s)) = 2 /\
    (forall m p, mgr s = Some m -> manager_iter (tok s) m None p = Blocks) /\
    all_succeed (take_calls [(None, 0%nat); (None, 5%nat)]) (tok s) = Some t' /\
    qlen (buf t') = 0 /\
    (forall cc p, Ctx.done cc = false -> Take t' cc p = Blocks).
Proof.
  apply (drain_exactly_initial Ctx.background 3 2 [(None, 0%nat); (None, 5%nat)]).
  - lia.
  - lia.
  - reflexivity.
  - repeat constructor.
  - reflexivity.
Defined.

(** C9: a [Take] that returns nil removes one marker from [buf] and changes
    nothing else: [length], [maxCapacity] and the lifecycle context of the
    bucket and the manager's locals, [target] included, are as before. *)
Theorem Take_frame (s : System) (cc : Ctx.t) (pick : nat) (t' : Token) :
  Take (tok s) cc pick = Returns (t', None) ->
  can_recv (buf (tok s)) = true /\
  buf t' = recv (buf (tok s)) /\
  qlen (buf t') = qlen (buf (tok s)) - 1 /\
  length t' = length (tok s) /\
  maxCapacity t' = maxCapacity (tok s) /\
  ctx t' = ctx (tok s) /\
  tok (step s (ETake cc pick)) = t' /\
  mgr (step s (ETake cc pick)) = mgr s.
Proof.
  intros H. destruct (Take_nil _ _ _ _ H) as [-> Hr].
  simpl. rewrite H. simpl. repeat split. exact Hr.
Qed.

Lemma Take_frame_witness :
  Take (mkToken None (mkChan 2 4) 4 3) None 0 =
  Returns (mkToken None (mkChan 1 4) 4 3, None) /\
  length (mkToken None (mkChan 1 4) 4 3) = length (mkToken None (mkChan 2 4) 4 3).
Proof.
  split; [reflexivity |].
  apply (Take_frame (mkSystem (mkToken None (mkChan 2 4) 4 3)
                              (Some (mkManager Buf Nil 4))) None 0%nat
                    (mkToken None (mkChan 1 4) 4 3)).
  reflexivity.
Defined.

Lemma all_succeed_buf (ops : list client_op) (t t' : Token) :
  all_succeed ops t = Some t' ->
  t' = with_buf t (mkChan (qlen (buf t) - takes ops + releases ops) (qcap (buf t))).
Proof.
  revert t. induction ops as [| o ops IH]; intros t H.
  - injection H as <-. unfold takes, releases. simpl.
    rewrite Z.sub_0_r, Z.add_0_r. now destruct t as [? [? ?] ? ?].
  - simpl in H.
    destruct (client_call t o) as [| [t1 [e |]]] eqn:E; try discriminate.
    apply IH in H. subst t'. destruct o as [cc p | cc p]; simpl in E.
    + apply Take_nil in E. destruct E as [-> _].
      unfold takes, releases, with_buf.
      cbn [filter is_take negb List.length buf ctx maxCapacity length recv qlen qcap].
      f_equal. f_equal. rewrite Nat2Z.inj_succ. lia.
    + apply Release_nil in E. destruct E as [-> _].
      unfold takes, releases, with_buf.
      cbn [filter is_take negb List.length buf ctx maxCapacity length send qlen qcap].
      f_equal. f_equal. rewrite Nat2Z.inj_succ. lia.
Qed.

(** C8: whatever the bucket and whatever the order of the calls, [N] [Take]
    calls and [N] [Release] calls that all return nil, with no manager
    activity in between, leave the number of markers in [buf], and indeed
    the whole bucket, as it was. *)
Theorem matched_pairs_keep_available (N : nat) (ops : list client_op)
  (t t' : Token) :
  takes ops = Z.of_nat N -> releases ops = Z.of_nat N ->
  all_succeed ops t = Some t' ->
  qlen (buf t') = qlen (buf t) /\ t' = t.
Proof.
  intros Ht Hr H. apply all_succeed_buf in H. subst t'.
  rewrite Ht, Hr. replace (qlen (buf t) - Z.of_nat N + Z.of_nat N) with (qlen (buf t)) by lia.
  split; [reflexivity |]. now destruct t as [? [? ?] ? ?].
Qed.

Lemma matched_pairs_keep_available_witness :
  all_succeed [OpTake None 0; OpTake None 1; OpRelease None 0; OpRelease None 2]
              (mkToken None (mkChan 2 4) 4 3) = Some (mkToken None (mkChan 2 4) 4 3) /\
  qlen (buf (mkToken None (mkChan 2 4) 4 3)) = qlen (buf (mkToken None (mkChan 2 4) 4 3)).
Proof.
  split; [reflexivity |].
  apply (matched_pairs_keep_available 2
           [OpTake None 0; OpTake None 1; OpRelease None 0; OpRelease None 2]
           (mkToken None (mkChan 2 4) 4 3) (mkToken None (mkChan 2 4) 4 3));
    reflexivity.
Defined.

(** ** Resizing *)

Lemma Cause_not_validation (c : Ctx.t) (e : error) :
  Cause c = Some e -> is_validation e = false.
Proof. destruct c; simpl; intros [= <-]. reflexivity. Qed.

(** C4: [SetCapacity] returns a validation error exactly when [c < 0] or
    [c > maxCapacity]; the check comes before the [select], so in that case
    the call returns at once and the bucket and its manager are untouched. *)
Theorem SetCapacity_validation (s : System) (cc : Ctx.t) (c : Z) (pick : nat) :
  ((exists s' e, SetCapacity s cc c pick = Returns (s', Some e) /\
                 is_validation e = true) <->
   (c < 0 \/ c > maxCapacity (tok s))) /\
  ((c < 0 \/ c > maxCapacity (tok s)) ->
   SetCapacity s cc c pick =
   Returns (s, Some (ErrCapacity c (maxCapacity (tok s)))) /\
   step s (ESetCapacity cc c pick) = s).
Proof.
  destruct (SetCapacity_cases s cc c pick)
    as [[Hbad E] | [Hok [[E _] | [[E _] | [[E _] | [m [_ E]]]]]]].
  - split; [split |].
    + intros _. lia.
    + intros _. exists s, (ErrCapacity c (maxCapacity (tok s))). auto.
    + intros _. split; [exact E |]. simpl. now rewrite E.
  - split; [split |]; try lia. intros [s' [e [H _]]]. congruence.
  - split; [split |]; try lia. intros [s' [e [H V]]].
    rewrite E in H. injection H as _ H.
    apply Cause_not_validation in H. congruence.
  - split; [split |]; try lia. intros [s' [e [H V]]].
    rewrite E in H. injection H as _ H.
    apply Cause_not_validation in H. congruence.
  - split; [split |]; try lia. intros [s' [e [H _]]]. congruence.
Qed.

Lemma SetCapacity_validation_witness :
  (5 < 0 \/ 5 > 4) /\
  step (mkSystem (mkToken None (mkChan 2 4) 4 3) (Some (mkManager Buf Nil 4)))
       (ESetCapacity None 5 0) =
  mkSystem (mkToken None (mkChan 2 4) 4 3) (Some (mkManager Buf Nil 4)).
Proof.
  assert (H : 5 < 0 \/ 5 > 4) by (right; lia).
  split; [exact H |].
  apply (SetCapacity_validation
           (mkSystem (mkToken None (mkChan 2 4) 4 3) (Some (mkManager Buf Nil 4)))
           None 5 0).
  exact H.
Defined.

(** ** The manager as a state machine *)

Lemma reachable_Inv (s : System) : reachable s -> Inv s.
Proof.
  intros (c & maxCap & len & s0 & es & Hint & Hnew & ->).
  apply Inv_run. now apply (Inv_NewToken c maxCap len).
Qed.

Lemma mode_reconcile (t : Token) (n : Z) :
  mode (reconcile t n) = Some (Spec.state_of n (length t)).
Proof.
  unfold reconcile, Spec.state_of.
  destruct (length t <? n); [reflexivity |].
  destruct (n <? length t); reflexivity.
Qed.

Lemma select_map {A B : Type} (f : A -> B) (l : list A) (pick : nat) :
  select (map f l) pick = outcome_map f (select l pick).
Proof.
  destruct l as [| x l]; [reflexivity |].
  unfold select, outcome_map. cbn [map]. f_equal.
  change (f x :: map f l) with (map f (x :: l)).
  rewrite length_map. apply map_nth.
Qed.

Lemma map_guard {A B : Type} (f : A -> B) (b : bool) (a : A) :
  map f (guard b a) = guard b (f a).
Proof. now destruct b. Qed.

(** On an invariant state the channel variables are those of one of the
    three states, chosen by comparing [target] with [length]. *)
Lemma manager_vars (s : System) (m : Manager) :
  Inv s -> mgr s = Some m ->
  (length (tok s) < target m /\ in_ m = Buf /\ out_ m = Nil) \/
  (target m < length (tok s) /\ in_ m = Nil /\ out_ m = Buf) \/
  (target m = length (tok s) /\ in_ m = Nil /\ out_ m = Nil).
Proof.
  intros HI Hm. destruct (inv_mgr s HI m Hm) as [_ Hr].
  destruct (reconcile_states (tok s) (target m)) as [[H S] | [[H S] | [H S]]];
    rewrite <- Hr in S; destruct S; auto.
Qed.

Lemma manager_offers (s : System) (m : Manager) (offer : option Z) :
  Inv s -> mgr s = Some m ->
  map action_of (manager_ready (tok s) m offer) =
  Spec.offers (abstract (tok s) m) offer.
Proof.
  intros HI Hm. unfold manager_ready, Spec.offers, Spec.state_of, abstract.
  cbn [Spec.terminated Spec.target Spec.length Spec.available Spec.capacity].
  unfold can_send, can_recv.
  destruct (manager_vars s m HI Hm) as [[H [-> ->]] | [[H [-> ->]] | [H [-> ->]]]];
    destruct (Z.ltb_spec (length (tok s)) (target m));
    destruct (Z.ltb_spec (target m) (length (tok s))); try lia;
    destruct (Ctx.done (ctx (tok s))), offer,
      (qlen (buf (tok s)) <? qcap (buf (tok s))), (0 <? qlen (buf (tok s)));
    reflexivity.
Qed.

Lemma manager_performs (s : System) (m : Manager) (offer : option Z)
  (c : manager_case) :
  Inv s -> mgr s = Some m -> In c (manager_ready (tok s) m offer) ->
  abstract_result (manager_fire (tok s) m c) =
  Spec.perform (abstract (tok s) m) (action_of c).
Proof.
  intros HI Hm Hin. apply manager_ready_In in Hin.
  pose proof (inv_len s HI) as Hl. pose proof (inv_max s HI) as Hx.
  destruct (inv_mgr s HI m Hm) as [Ht _].
  destruct (manager_vars s m HI Hm) as [[H [Hi Ho]] | [[H [Hi Ho]] | [H [Hi Ho]]]];
    destruct Hin as [[-> _] | [[-> [Hi' _]] | [[-> [Ho' _]] | [n [-> _]]]]];
    try congruence;
    unfold abstract_result, abstract; cbn [manager_fire fst snd action_of Spec.perform];
    try reflexivity;
    rewrite ?reconcile_target; cbn;
    rewrite ?wrap_id by (unfold is_int, min_int; lia); reflexivity.
Qed.

(** C5: in every state reached from [NewToken] the loop of [manager] is the
    three-state machine of the specification.  Its channel variables encode
    the state chosen by comparing [target] with [length]; an iteration offers
    and performs exactly what that machine does in that state (one insertion
    with [length + 1] when growing, one removal with [length - 1] when
    shrinking, neither when steady, besides a new target or termination);
    and the iteration leaves the variables re-derived from the new
    [target] and [length]. *)
Theorem manager_three_states (s : System) (m : Manager) :
  reachable s -> mgr s = Some m ->
  mode m = Some (Spec.state_of (target m) (length (tok s))) /\
  (forall offer pick,
     outcome_map abstract_result (manager_iter (tok s) m offer pick) =
     spec_iteration (abstract (tok s) m) offer pick) /\
  (forall offer pick t' m',
     manager_iter (tok s) m offer pick = Returns (t', Some m') ->
     mode m' = Some (Spec.state_of (target m') (length t'))).
Proof.
  intros Hreach Hm. pose proof (reachable_Inv s Hreach) as HI.
  destruct (inv_mgr s HI m Hm) as [_ Hr].
  split; [| split].
  - rewrite Hr at 1. apply mode_reconcile.
  - intros offer pick. unfold spec_iteration, manager_iter.
    rewrite <- (manager_offers s m offer HI Hm), select_map.
    destruct (select_spec (manager_ready (tok s) m offer) pick)
      as [[_ ->] | [c [Hin ->]]]; [reflexivity |].
    cbn [outcome_map]. f_equal. now apply (manager_performs s m offer).
  - intros offer pick t' m' H. unfold manager_iter in H.
    destruct (select (manager_ready (tok s) m offer) pick) as [| c];
      [discriminate |].
    injection H as H. destruct c as [| | | n]; cbn [manager_fire] in H;
      try discriminate H; injection H as <- <-;
      rewrite reconcile_target; apply mode_reconcile.
Qed.

Lemma manager_three_states_witness :
  reachable (mkSystem (mkToken None (mkChan 5 10) 10 5) (Some (mkManager Buf Nil 7))) /\
  mode (mkManager Buf Nil 7) = Some Spec.growing.
Proof.
  assert (R : reachable (mkSystem (mkToken None (mkChan 5 10) 10 5)
                                  (Some (mkManager Buf Nil 7)))).
  { exists Ctx.background, 10, 5,
      (mkSystem (mkToken None (mkChan 5 10) 10 5) (Some (mkManager Nil Nil 5))),
      [ESetCapacity None 7 0].
    split; [unfold is_int, min_int, max_int; lia |]. split; reflexivity. }
  split; [exact R |].
  apply (manager_three_states _ (mkManager Buf Nil 7) R). reflexivity.
Defined.

(** ** Handing over targets *)

Lemma SetCapacity_nil (s s' : System) (cc : Ctx.t) (c : Z) (pick : nat) :
  SetCapacity s cc c pick = Returns (s', None) ->
  0 <= c <= maxCapacity (tok s) /\ mgr s <> None /\
  s' = mkSystem (tok s) (Some (reconcile (tok s) c)).
Proof.
  intros H.
  destruct (SetCapacity_cases s cc c pick)
    as [[_ E] | [Hc [[E _] | [[E D] | [[E D] | [m [Hm E]]]]]]];
    rewrite E in H; try discriminate.
  - injection H as _ H. now apply Cause_done in H.
  - injection H as _ H. now apply Cause_done in H.
  - injection H as <-. rewrite Hm. repeat split; [lia | lia | discriminate].
Qed.



(** ** After the lifecycle context is cancelled *)

Lemma manager_step_None (s : System) (pick : nat) :
  mgr s = None -> manager_step s pick = s.
Proof. intros H. unfold manager_step. now rewrite H. Qed.




Lemma mgr_step_None (s : System) (e : event) :
  mgr s = None -> mgr (step s e) = None.
Proof.
  intros H. destruct e as [c p | c p | cc c p | p | k]; simpl.
  - now destruct (Take (tok s) c p) as [| [? ?]].
  - now destruct (Release (tok s) c p) as [| [? ?]].
  - destruct (SetCapacity_cases s cc c p)
      as [[_ ->] | [_ [[-> _] | [[-> _] | [[-> _] | [m [Hm _]]]]]]];
      try assumption. congruence.
  - now rewrite manager_step_None.
  - exact H.
Qed.




(** ** The manager on a live bucket *)

Lemma manager_ready_live (s : System) (m : Manager) :
  Inv s -> Ctx.done (ctx (tok s)) = false -> mgr s = Some m ->
  manager_ready (tok s) m None =
  if length (tok s) <? target m then guard (can_send (buf (tok s))) MIn
  else if target m <? length (tok s) then guard (can_recv (buf (tok s))) MOut
  else [].
Proof.
  intros HI Hd Hm. unfold manager_ready. rewrite Hd.
  destruct (manager_vars s m HI Hm) as [[H [-> ->]] | [[H [-> ->]] | [H [-> ->]]]];
    destruct (Z.ltb_spec (length (tok s)) (target m));
    destruct (Z.ltb_spec (target m) (length (tok s))); try lia;
    unfold guard; destruct (can_send (buf (tok s))), (can_recv (buf (tok s)));
    reflexivity.
Qed.

Lemma manager_step_grow (s : System) (m : Manager) (pick : nat) :
  Inv s -> Ctx.done (ctx (tok s)) = false -> mgr s = Some m ->
  length (tok s) < target m -> can_send (buf (tok s)) = true ->
  manager_step s pick =
  mkSystem
    (with_length (with_buf (tok s) (send (buf (tok s)))) (length (tok s) + 1))
    (Some (reconcile
             (with_length (with_buf (tok s) (send (buf (tok s))))
                          (length (tok s) + 1))
             (target m))).
Proof.
  intros HI Hd Hm Hlt Hs. unfold manager_step, manager_iter. rewrite Hm.
  rewrite (manager_ready_live s m HI Hd Hm), Hs.
  destruct (Z.ltb_spec (length (tok s)) (target m)); [| lia].
  unfold guard. rewrite select_one. cbn [manager_fire].
  pose proof (inv_len s HI). pose proof (inv_max s HI).
  destruct (inv_mgr s HI m Hm) as [Ht _].
  rewrite wrap_id by (unfold is_int, min_int; lia). reflexivity.
Qed.

Lemma manager_step_shrink (s : System) (m : Manager) (pick : nat) :
  Inv s -> Ctx.done (ctx (tok s)) = false -> mgr s = Some m ->
  target m < length (tok s) -> can_recv (buf (tok s)) = true ->
  manager_step s pick =
  mkSystem
    (with_length (with_buf (tok s) (recv (buf (tok s)))) (length (tok s) - 1))
    (Some (reconcile
             (with_length (with_buf (tok s) (recv (buf (tok s))))
                          (length (tok s) - 1))
             (target m))).
Proof.
  intros HI Hd Hm Hlt Hs. unfold manager_step, manager_iter. rewrite Hm.
  rewrite (manager_ready_live s m HI Hd Hm), Hs.
  destruct (Z.ltb_spec (length (tok s)) (target m)); [lia |].
  destruct (Z.ltb_spec (target m) (length (tok s))); [| lia].
  unfold guard. rewrite select_one. cbn [manager_fire].
  pose proof (inv_len s HI). pose proof (inv_max s HI).
  destruct (inv_mgr s HI m Hm) as [Ht _].
  rewrite wrap_id by (unfold is_int, min_int; lia). reflexivity.
Qed.

Lemma manager_step_wait (s : System) (m : Manager) (pick : nat) :
  Inv s -> Ctx.done (ctx (tok s)) = false -> mgr s = Some m ->
  target m = length (tok s) \/
  (length (tok s) < target m /\ can_send (buf (tok s)) = false) \/
  (target m < length (tok s) /\ can_recv (buf (tok s)) = false) ->
  manager_step s pick = s.
Proof.
  intros HI Hd Hm H. unfold manager_step, manager_iter. rewrite Hm.
  rewrite (manager_ready_live s m HI Hd Hm).
  destruct (Z.ltb_spec (length (tok s)) (target m));
    destruct (Z.ltb_spec (target m) (length (tok s)));
    destruct H as [H | [[H H'] | [H H']]]; try lia;
    try rewrite H'; reflexivity.
Qed.

Lemma manager_alone_cons (p : nat) (picks : list nat) (s : System) :
  manager_alone (p :: picks) s = manager_alone picks (manager_step s p).
Proof. reflexivity. Qed.

Lemma manager_alone_wait (picks : list nat) (s : System) (m : Manager) :
  Inv s -> Ctx.done (ctx (tok s)) = false -> mgr s = Some m ->
  target m = length (tok s) \/
  (length (tok s) < target m /\ can_send (buf (tok s)) = false) \/
  (target m < length (tok s) /\ can_recv (buf (tok s)) = false) ->
  manager_alone picks s = s.
Proof.
  intros HI Hd Hm H. induction picks as [| p picks IH]; [reflexivity |].
  rewrite manager_alone_cons, (manager_step_wait s m p HI Hd Hm H). exact IH.
Qed.

Lemma steady_is_converged (s : System) (m : Manager) :
  Inv s -> mgr s = Some m -> target m = length (tok s) ->
  s = converged (tok s) (target m).
Proof.
  intros HI Hm Ht.
  destruct (manager_vars s m HI Hm) as [[H _] | [[H _] | [_ [Hi Ho]]]]; try lia.
  unfold converged. rewrite Ht, Z.sub_diag, Z.add_0_r.
  destruct s as [[c [l q] mx n] mg]. simpl in *. subst mg.
  destruct m as [i o tg]. simpl in *. now subst.
Qed.

Lemma manager_converges (picks : list nat) (s : System) (m : Manager) :
  Inv s -> Ctx.done (ctx (tok s)) = false -> mgr s = Some m ->
  0 <= qlen (buf (tok s)) + (target m - length (tok s)) <= qcap (buf (tok s)) ->
  Z.abs (target m - length (tok s)) <= Z.of_nat (List.length picks) ->
  manager_alone picks s = converged (tok s) (target m).
Proof.
  revert s m. induction picks as [| p picks IH]; intros s m HI Hd Hm Hroom Hn.
  - simpl in Hn. apply (steady_is_converged s m HI Hm). lia.
  - rewrite manager_alone_cons. cbn [List.length] in Hn.
    rewrite Nat2Z.inj_succ in Hn. pose proof (inv_buf s HI) as Hb.
    destruct (Z.lt_trichotomy (length (tok s)) (target m)) as [Hlt | [Heq | Hgt]].
    + assert (Hs : can_send (buf (tok s)) = true)
        by (unfold can_send; apply Z.ltb_lt; lia).
      pose proof (Inv_manager_step s p HI) as HI'.
      rewrite (manager_step_grow s m p HI Hd Hm Hlt Hs) in *.
      rewrite (IH _ _ HI' Hd eq_refl); rewrite ?reconcile_target; simpl; try lia.
      unfold converged. simpl. do 3 f_equal. lia.
    + rewrite (manager_step_wait s m p HI Hd Hm) by auto.
      apply (IH s m HI Hd Hm Hroom). lia.
    + assert (Hs : can_recv (buf (tok s)) = true)
        by (unfold can_recv; apply Z.ltb_lt; lia).
      pose proof (Inv_manager_step s p HI) as HI'.
      rewrite (manager_step_shrink s m p HI Hd Hm Hgt Hs) in *.
      rewrite (IH _ _ HI' Hd eq_refl); rewrite ?reconcile_target; simpl; try lia.
      unfold converged. simpl. do 3 f_equal. lia.
Qed.

(** ** Failing calls *)

(** X1: a [Take], [Release] or [SetCapacity] that returns an error has not
    touched the bucket or the manager. *)
Theorem failed_calls_change_nothing :
  (forall t c p t' e, Take t c p = Returns (t', Some e) -> t' = t) /\
  (forall t c p t' e, Release t c p = Returns (t', Some e) -> t' = t) /\
  (forall s cc c p s' e, SetCapacity s cc c p = Returns (s', Some e) -> s' = s).
Proof.
  split; [| split].
  - intros t c p t' e H.
    destruct (Take_cases t c p) as [[E _] | [[E _] | [[E _] | [E _]]]];
      rewrite E in H; congruence.
  - intros t c p t' e H.
    destruct (Release_cases t c p) as [[E _] | [[E _] | [[E _] | [E _]]]];
      rewrite E in H; congruence.
  - intros s cc c p s' e H.
    destruct (SetCapacity_cases s cc c p)
      as [[_ E] | [_ [[E _] | [[E _] | [[E _] | [m [_ E]]]]]]];
      rewrite E in H; congruence.
Qed.

Lemma failed_calls_change_nothing_witness :
  Take (mkToken None (mkChan 2 4) 4 3) (Some "timeout"%string) 0 =
  Returns (mkToken None (mkChan 2 4) 4 3, Some (ErrCause "timeout"%string)) /\
  mkToken None (mkChan 2 4) 4 3 = mkToken None (mkChan 2 4) 4 3.
Proof.
  split; [reflexivity |].
  apply (proj1 failed_calls_change_nothing
           (mkToken None (mkChan 2 4) 4 3) (Some "timeout"%string) 0%nat
           (mkToken None (mkChan 2 4) 4 3) (ErrCause "timeout"%string)).
  reflexivity.
Defined.

(** X2: the only errors of [Take] and [Release] are causes of a finished
    context, the caller's or the bucket's; [SetCapacity] can besides return
    its own range error.  While both contexts are live, [Take] and [Release]
    never fail: they return nil or block. *)
Theorem errors_are_causes :
  (forall t c p t' e, Take t c p = Returns (t', Some e) ->
     (Ctx.done c = true /\ Cause c = Some e) \/
     (Ctx.done (ctx t) = true /\ Cause (ctx t) = Some e)) /\
  (forall t c p t' e, Release t c p = Returns (t', Some e) ->
     (Ctx.done c = true /\ Cause c = Some e) \/
     (Ctx.done (ctx t) = true /\ Cause (ctx t) = Some e)) /\
  (forall s cc c p s' e, SetCapacity s cc c p = Returns (s', Some e) ->
     (Ctx.done cc = true /\ Cause cc = Some e) \/
     (Ctx.done (ctx (tok s)) = true /\ Cause (ctx (tok s)) = Some e) \/
     ((c < 0 \/ maxCapacity (tok s) < c) /\
      e = ErrCapacity c (maxCapacity (tok s)))) /\
  (forall t c p, Ctx.done c = false -> Ctx.done (ctx t) = false ->
     (Take t c p = Blocks \/ exists t', Take t c p = Returns (t', None)) /\
     (Release t c p = Blocks \/ exists t', Release t c p = Returns (t', None))).
Proof.
  split; [| split; [| split]].
  - intros t c p t' e H.
    destruct (Take_cases t c p) as [[E _] | [[E D] | [[E D] | [E _]]]];
      rewrite E in H; try discriminate; injection H as _ H; auto.
  - intros t c p t' e H.
    destruct (Release_cases t c p) as [[E _] | [[E D] | [[E D] | [E _]]]];
      rewrite E in H; try discriminate; injection H as _ H; auto.
  - intros s cc c p s' e H.
    destruct (SetCapacity_cases s cc c p)
      as [[Hbad E] | [_ [[E _] | [[E D] | [[E D] | [m [_ E]]]]]]];
      rewrite E in H; try discriminate; injection H as _ H; auto.
  - intros t c p Hc Ht. split.
    + destruct (Take_cases t c p) as [[E _] | [[_ D] | [[_ D] | [E _]]]];
        try congruence; eauto.
    + destruct (Release_cases t c p) as [[E _] | [[_ D] | [[_ D] | [E _]]]];
        try congruence; eauto.
Qed.

Lemma errors_are_causes_witness :
  Take (mkToken (Some "closed"%string) (mkChan 0 4) 4 3) None 0 =
  Returns (mkToken (Some "closed"%string) (mkChan 0 4) 4 3,
           Some (ErrCause "closed"%string)) /\
  ((Ctx.done None = true /\ Cause None = Some (ErrCause "closed"%string)) \/
   (Ctx.done (Some "closed"%string) = true /\
    Cause (Some "closed"%string) = Some (ErrCause "closed"%string))).
Proof.
  split; [reflexivity |].
  apply (proj1 errors_are_causes
           (mkToken (Some "closed"%string) (mkChan 0 4) 4 3) None 0%nat
           (mkToken (Some "closed"%string) (mkChan 0 4) 4 3)
           (ErrCause "closed"%string)).
  reflexivity.
Defined.

(** X3: a caller whose own context is already finished gets its cause back
    from [Take] on an empty bucket and from [Release] on a full one, the
    bucket being live; when a marker (or room) is there as well, the call may
    equally go through, and nothing else can happen. *)
Theorem cancelled_caller (t : Token) (k : Ctx.cause) :
  Ctx.done (ctx t) = false ->
  (can_recv (buf t) = false ->
   forall p, Take t (Some k) p = Returns (t, Some (ErrCause k))) /\
  (can_send (buf t) = false ->
   forall p, Release t (Some k) p = Returns (t, Some (ErrCause k))) /\
  (can_recv (buf t) = true ->
   (exists p, Take t (Some k) p = Returns (t, Some (ErrCause k))) /\
   (exists p, Take t (Some k) p = Returns (with_buf t (recv (buf t)), None)) /\
   (forall p, Take t (Some k) p = Returns (t, Some (ErrCause k)) \/
              Take t (Some k) p = Returns (with_buf t (recv (buf t)), None))) /\
  (can_send (buf t) = true ->
   (exists p, Release t (Some k) p = Returns (t, Some (ErrCause k))) /\
   (exists p, Release t (Some k) p = Returns (with_buf t (send (buf t)), None)) /\
   (forall p, Release t (Some k) p = Returns (t, Some (ErrCause k)) \/
              Release t (Some k) p = Returns (with_buf t (send (buf t)), None))).
Proof.
  intros Ht. split; [| split; [| split]].
  - intros Hb p. unfold Take, Take_ready. rewrite Ht, Hb.
    unfold guard. cbn [Ctx.done app]. now rewrite select_one.
  - intros Hb p. unfold Release, Release_ready. rewrite Ht, Hb.
    unfold guard. cbn [Ctx.done app]. now rewrite select_one.
  - intros Hb. split; [| split].
    + exists 0%nat. unfold Take, Take_ready. rewrite Ht, Hb. reflexivity.
    + exists 1%nat. unfold Take, Take_ready. rewrite Ht, Hb. reflexivity.
    + intros p.
      destruct (Take_cases t (Some k) p) as [[_ [D _]] | [[E _] | [[_ D] | [E _]]]];
        try discriminate; try congruence; auto.
  - intros Hb. split; [| split].
    + exists 0%nat. unfold Release, Release_ready. rewrite Ht, Hb. reflexivity.
    + exists 1%nat. unfold Release, Release_ready. rewrite Ht, Hb. reflexivity.
    + intros p.
      destruct (Release_cases t (Some k) p)
        as [[_ [D _]] | [[E _] | [[_ D] | [E _]]]];
        try discriminate; try congruence; auto.
Qed.

Lemma cancelled_caller_witness :
  Ctx.done (ctx (mkToken None (mkChan 0 2) 2 0)) = false /\
  Take (mkToken None (mkChan 0 2) 2 0) (Some "context canceled"%string) 7 =
  Returns (mkToken None (mkChan 0 2) 2 0,
           Some (ErrCause "context canceled"%string)).
Proof.
  split; [reflexivity |].
  apply (cancelled_caller (mkToken None (mkChan 0 2) 2 0)
                          "context canceled"%string eq_refl).
  reflexivity.
Defined.

(** X4: a [Release] that returns nil found room, adds one marker to [buf]
    and changes nothing else: [length], [maxCapacity], the lifecycle context
    and the manager's locals are as before. *)
Theorem Release_frame (s : System) (cc : Ctx.t) (pick : nat) (t' : Token) :
  Release (tok s) cc pick = Returns (t', None) ->
  can_send (buf (tok s)) = true /\
  qlen (buf t') = qlen (buf (tok s)) + 1 /\
  qcap (buf t') = qcap (buf (tok s)) /\
  length t' = length (tok s) /\
  maxCapacity t' = maxCapacity (tok s) /\
  ctx t' = ctx (tok s) /\
  tok (step s (ERelease cc pick)) = t' /\
  mgr (step s (ERelease cc pick)) = mgr s.
Proof.
  intros H. destruct (Release_nil _ _ _ _ H) as [-> Hr].
  simpl. rewrite H. simpl. repeat split. exact Hr.
Qed.

Lemma Release_frame_witness :
  Release (mkToken None (mkChan 2 4) 4 3) None 0 =
  Returns (mkToken None (mkChan 3 4) 4 3, None) /\
  qlen (buf (mkToken None (mkChan 3 4) 4 3)) =
  qlen (buf (mkToken None (mkChan 2 4) 4 3)) + 1.
Proof.
  split; [reflexivity |].
  apply (Release_frame (mkSystem (mkToken None (mkChan 2 4) 4 3)
                                 (Some (mkManager Buf Nil 4))) None 0%nat
                       (mkToken None (mkChan 3 4) 4 3)).
  reflexivity.
Defined.

(** ** What every reachable bucket satisfies *)

(** X5: along every interleaving after a successful [NewToken] the number
    of markers in [buf] stays within [0 .. maxCapacity], the capacity of
    [buf] stays [maxCapacity], and the manager's [target] stays within
    [0 .. maxCapacity]. *)
Theorem available_within_capacity (c : Ctx.t) (maxCap len : Z) (s0 : System)
  (es : list event) :
  is_int maxCap ->
  NewToken c maxCap len = Returns (inl s0) ->
  0 <= qlen (buf (tok (run es s0))) <= maxCap /\
  qcap (buf (tok (run es s0))) = maxCap /\
  (forall m, mgr (run es s0) = Some m -> 0 <= target m <= maxCap).
Proof.
  intros Hint Hnew.
  destruct (Inv_NewToken c maxCap len s0 Hint Hnew) as [HI [Hmax _]].
  destruct (Inv_run es s0 HI) as [HI' Hmax'].
  rewrite Hmax in Hmax'.
  pose proof (inv_buf _ HI') as Hb. pose proof (inv_cap _ HI') as Hc.
  rewrite Hmax' in Hc. rewrite Hc in Hb.
  split; [exact Hb |]. split; [exact Hc |].
  intros m Hm. destruct (inv_mgr _ HI' m Hm) as [Ht _]. now rewrite Hmax' in Ht.
Qed.

Lemma available_within_capacity_witness :
  is_int 2 /\
  NewToken Ctx.background 2 2 =
  Returns (inl (mkSystem (mkToken None (mkChan 2 2) 2 2)
                         (Some (mkManager Nil Nil 2)))) /\
  0 <= qlen (buf (tok (run [ERelease None 0; ETake None 0; ERelease None 0;
                            ERelease None 0]
                           (mkSystem (mkToken None (mkChan 2 2) 2 2)
                                     (Some (mkManager Nil Nil 2)))))) <= 2.
Proof.
  assert (Hint : is_int 2) by (unfold is_int, min_int, max_int; lia).
  split; [exact Hint |]. split; [reflexivity |].
  apply (available_within_capacity Ctx.background 2 2
           (mkSystem (mkToken None (mkChan 2 2) 2 2) (Some (mkManager Nil Nil 2)))
           [ERelease None 0; ETake None 0; ERelease None 0; ERelease None 0] Hint).
  reflexivity.
Defined.

Lemma outstanding_step (s : System) (e : event) :
  Inv s -> is_client e = false ->
  outstanding (tok (step s e)) = outstanding (tok s).
Proof.
  intros HI He. destruct e as [c p | c p | cc c p | p | k];
    try discriminate He; simpl.
  - destruct (SetCapacity_cases s cc c p)
      as [[_ ->] | [_ [[-> _] | [[-> _] | [[-> _] | [m [_ ->]]]]]]];
      reflexivity.
  - unfold manager_step. destruct (mgr s) as [m |] eqn:Hm; [| reflexivity].
    unfold manager_iter.
    destruct (select_spec (manager_ready (tok s) m None) p)
      as [[_ ->] | [c [Hin ->]]]; [reflexivity |].
    pose proof (inv_len s HI). pose proof (inv_max s HI).
    destruct (inv_mgr s HI m Hm) as [Ht _].
    apply manager_ready_In in Hin.
    destruct (manager_vars s m HI Hm) as [[H1 [Hi Ho]] | [[H1 [Hi Ho]] | [H1 [Hi Ho]]]];
      destruct Hin as [[-> _] | [[-> [Hi' _]] | [[-> [Ho' _]] | [n [_ [=]]]]]];
      try congruence; try reflexivity;
      unfold outstanding; cbn;
      rewrite wrap_id by (unfold is_int, min_int; lia); lia.
  - reflexivity.
Qed.

(** X6: the manager never changes how many tokens callers hold.  Over any
    run of manager iterations, [SetCapacity] calls and cancellation, with no
    [Take] or [Release] in it, [length - len(buf)] is unchanged: each marker
    the manager inserts or removes moves [length] by the same amount. *)
Theorem outstanding_preserved (s : System) (es : list event) :
  reachable s -> forallb (fun e => negb (is_client e)) es = true ->
  outstanding (tok (run es s)) = outstanding (tok s).
Proof.
  intros Hreach. pose proof (reachable_Inv s Hreach) as HI. clear Hreach.
  revert s HI. induction es as [| e es IH]; intros s HI Hes; [reflexivity |].
  simpl in Hes. apply andb_prop in Hes. destruct Hes as [He Hes].
  apply negb_true_iff in He.
  change (run (e :: es) s) with (run es (step s e)).
  rewrite IH by (try apply Inv_step; assumption).
  now apply outstanding_step.
Qed.

Lemma outstanding_preserved_witness :
  reachable (mkSystem (mkToken None (mkChan 1 10) 10 5) (Some (mkManager Nil Nil 5))) /\
  outstanding (tok (run [ESetCapacity None 8 0; EManager 0; EManager 3;
                         ESetCapacity None 2 0; EManager 1; ECancel "stop"%string]
                        (mkSystem (mkToken None (mkChan 1 10) 10 5)
                                  (Some (mkManager Nil Nil 5))))) =
  outstanding (mkToken None (mkChan 1 10) 10 5).
Proof.
  assert (R : reachable (mkSystem (mkToken None (mkChan 1 10) 10 5)
                                  (Some (mkManager Nil Nil 5)))).
  { exists Ctx.background, 10, 5,
      (mkSystem (mkToken None (mkChan 5 10) 10 5) (Some (mkManager Nil Nil 5))),
      [ETake None 0; ETake None 0; ETake None 0; ETake None 0].
    split; [unfold is_int, min_int, max_int; lia |]. split; reflexivity. }
  split; [exact R |].
  apply (outstanding_preserved _
           [ESetCapacity None 8 0; EManager 0; EManager 3;
            ESetCapacity None 2 0; EManager 1; ECancel "stop"%string] R).
  reflexivity.
Defined.

(** ** Convergence of the manager *)

(** X7: on a live bucket the manager left alone reaches its target.  If
    [buf] can take the missing markers (or holds the surplus ones), then
    after any [|target - length|] or more iterations, whatever the scheduler
    picks, [length] equals [target], [buf] has gained (or lost) exactly
    [target - length] markers and both channel variables are nil; further
    iterations change nothing. *)
Theorem manager_reaches_target (s : System) (m : Manager) (picks more : list nat) :
  reachable s -> Ctx.done (ctx (tok s)) = false -> mgr s = Some m ->
  0 <= qlen (buf (tok s)) + (target m - length (tok s)) <= qcap (buf (tok s)) ->
  Z.abs (target m - length (tok s)) <= Z.of_nat (List.length picks) ->
  manager_alone picks s = converged (tok s) (target m) /\
  length (tok (manager_alone picks s)) = target m /\
  qlen (buf (tok (manager_alone picks s))) =
  qlen (buf (tok s)) + (target m - length (tok s)) /\
  mgr (manager_alone picks s) = Some (mkManager Nil Nil (target m)) /\
  manager_alone more (manager_alone picks s) = manager_alone picks s.
Proof.
  intros Hreach Hd Hm Hroom Hn. pose proof (reachable_Inv s Hreach) as HI.
  pose proof (manager_converges picks s m HI Hd Hm Hroom Hn) as E.
  assert (E' : manager_alone (picks ++ more) s = converged (tok s) (target m)).
  { apply (manager_converges _ s m HI Hd Hm Hroom).
    rewrite length_app, Nat2Z.inj_add. lia. }
  unfold manager_alone in E'. rewrite fold_left_app in E'.
  fold (manager_alone picks s) in E'.
  fold (manager_alone more (manager_alone picks s)) in E'.
  rewrite E' , E. repeat split.
Qed.

Lemma manager_reaches_target_witness :
  reachable (mkSystem (mkToken None (mkChan 0 10) 10 2) (Some (mkManager Buf Nil 4))) /\
  manager_alone [0; 5; 9]%nat
    (mkSystem (mkToken None (mkChan 0 10) 10 2) (Some (mkManager Buf Nil 4))) =
  mkSystem (mkToken None (mkChan 2 10) 10 4) (Some (mkManager Nil Nil 4)).
Proof.
  assert (R : reachable (mkSystem (mkToken None (mkChan 0 10) 10 2)
                                  (Some (mkManager Buf Nil 4)))).
  { exists Ctx.background, 10, 2,
      (mkSystem (mkToken None (mkChan 2 10) 10 2) (Some (mkManager Nil Nil 2))),
      [ETake None 0; ETake None 0; ESetCapacity None 4 0].
    split; [unfold is_int, min_int, max_int; lia |]. split; reflexivity. }
  split; [exact R |].
  apply (manager_reaches_target _ (mkManager Buf Nil 4) [0; 5; 9]%nat [] R);
    try reflexivity; simpl; lia.
Defined.

(** X8: on a live bucket the manager does nothing, however often it is
    scheduled, when [target = length], when it wants to insert but [buf] is
    full, and when it wants to remove but [buf] is empty: a shrink waits for
    tokens to be released. *)
Theorem manager_waits (s : System) (m : Manager) (picks : list nat) :
  reachable s -> Ctx.done (ctx (tok s)) = false -> mgr s = Some m ->
  target m = length (tok s) \/
  (length (tok s) < target m /\ can_send (buf (tok s)) = false) \/
  (target m < length (tok s) /\ can_recv (buf (tok s)) = false) ->
  manager_alone picks s = s.
Proof.
  intros Hreach Hd Hm H.
  apply (manager_alone_wait picks s m (reachable_Inv s Hreach) Hd Hm H).
Qed.

Lemma manager_waits_witness :
  reachable (mkSystem (mkToken None (mkChan 0 10) 10 2) (Some (mkManager Nil Buf 1))) /\
  manager_alone [0; 1; 2]%nat
    (mkSystem (mkToken None (mkChan 0 10) 10 2) (Some (mkManager Nil Buf 1))) =
  mkSystem (mkToken None (mkChan 0 10) 10 2) (Some (mkManager Nil Buf 1)).
Proof.
  assert (R : reachable (mkSystem (mkToken None (mkChan 0 10) 10 2)
                                  (Some (mkManager Nil Buf 1)))).
  { exists Ctx.background, 10, 2,
      (mkSystem (mkToken None (mkChan 2 10) 10 2) (Some (mkManager Nil Nil 2))),
      [ETake None 0; ETake None 0; ESetCapacity None 1 0].
    split; [unfold is_int, min_int, max_int; lia |]. split; reflexivity. }
  split; [exact R |].
  apply (manager_waits _ (mkManager Nil Buf 1) [0; 1; 2]%nat R);
    try reflexivity.
  right; right. split; [simpl; lia | reflexivity].
Defined.

Lemma manager_drains (picks : list nat) (s : System) (m : Manager) :
  Inv s -> Ctx.done (ctx (tok s)) = false -> mgr s = Some m ->
  target m <= length (tok s) - qlen (buf (tok s)) ->
  qlen (buf (tok s)) <= Z.of_nat (List.length picks) ->
  length (tok (manager_alone picks s)) = length (tok s) - qlen (buf (tok s)) /\
  qlen (buf (tok (manager_alone picks s))) = 0 /\
  (exists m', mgr (manager_alone picks s) = Some m' /\ target m' = target m).
Proof.
  revert s m. induction picks as [| p picks IH]; intros s m HI Hd Hm Ht Hn;
    pose proof (inv_buf s HI) as Hb.
  - simpl in Hn. simpl. repeat split; try lia. eauto.
  - rewrite manager_alone_cons. cbn [List.length] in Hn.
    rewrite Nat2Z.inj_succ in Hn.
    destruct (Z.eq_dec (qlen (buf (tok s))) 0) as [Hz | Hnz].
    + rewrite (manager_step_wait s m p HI Hd Hm).
      * apply (IH s m HI Hd Hm Ht). lia.
      * destruct (Z.eq_dec (target m) (length (tok s))); [auto |].
        right; right. split; [lia |]. unfold can_recv. apply Z.ltb_ge. lia.
    + assert (Hs : can_recv (buf (tok s)) = true)
        by (unfold can_recv; apply Z.ltb_lt; lia).
      assert (Hgt : target m < length (tok s)) by lia.
      pose proof (Inv_manager_step s p HI) as HI'.
      rewrite (manager_step_shrink s m p HI Hd Hm Hgt Hs) in *.
      destruct (IH _ _ HI' Hd eq_refl) as [H1 [H2 [m' [H3 H4]]]];
        rewrite ?reconcile_target; simpl; try lia.
      simpl in H1. rewrite reconcile_target in H4.
      repeat split; try lia; try assumption. eauto.
Qed.

(** X9: a shrink takes only what is in [buf].  On a live bucket whose
    target lies at or below [length - len(buf)], the manager left alone for
    at least [len(buf)] iterations empties [buf], lowers [length] by that
    many and keeps its target; the rest of the reduction is still owed. *)
Theorem shrink_takes_available (s : System) (m : Manager) (picks : list nat) :
  reachable s -> Ctx.done (ctx (tok s)) = false -> mgr s = Some m ->
  target m <= length (tok s) - qlen (buf (tok s)) ->
  qlen (buf (tok s)) <= Z.of_nat (List.length picks) ->
  length (tok (manager_alone picks s)) = length (tok s) - qlen (buf (tok s)) /\
  qlen (buf (tok (manager_alone picks s))) = 0 /\
  (exists m', mgr (manager_alone picks s) = Some m' /\ target m' = target m).
Proof.
  intros Hreach. apply manager_drains. now apply reachable_Inv.
Qed.

Lemma shrink_takes_available_witness :
  reachable (mkSystem (mkToken None (mkChan 2 10) 10 5) (Some (mkManager Nil Buf 1))) /\
  length (tok (manager_alone [0; 0; 0; 0]%nat
                 (mkSystem (mkToken None (mkChan 2 10) 10 5)
                           (Some (mkManager Nil Buf 1))))) = 5 - 2.
Proof.
  assert (R : reachable (mkSystem (mkToken None (mkChan 2 10) 10 5)
                                  (Some (mkManager Nil Buf 1)))).
  { exists Ctx.background, 10, 5,
      (mkSystem (mkToken None (mkChan 5 10) 10 5) (Some (mkManager Nil Nil 5))),
      [ETake None 0; ETake None 0; ETake None 0; ESetCapacity None 1 0].
    split; [unfold is_int, min_int, max_int; lia |]. split; reflexivity. }
  split; [exact R |].
  apply (shrink_takes_available _ (mkManager Nil Buf 1) [0; 0; 0; 0]%nat R);
    try reflexivity; simpl; lia.
Defined.

(** ** The manager's exit *)

Lemma ctx_step_done (s : System) (e : event) :
  Ctx.done (ctx (tok s)) = true -> Ctx.done (ctx (tok (step s e))) = true.
Proof.
  intros Hd. destruct e as [c p | c p | cc c p | p | k]; simpl.
  - destruct (Take_cases (tok s) c p)
      as [[-> _] | [[-> _] | [[-> _] | [-> _]]]]; exact Hd.
  - destruct (Release_cases (tok s) c p)
      as [[-> _] | [[-> _] | [[-> _] | [-> _]]]]; exact Hd.
  - destruct (SetCapacity_cases s cc c p)
      as [[_ ->] | [_ [[-> _] | [[-> _] | [[-> _] | [m [_ ->]]]]]]]; exact Hd.
  - unfold manager_step. destruct (mgr s) as [m |]; [| exact Hd].
    unfold manager_iter.
    destruct (select (manager_ready (tok s) m None) p) as [| [| | | n]];
      exact Hd.
  - destruct (ctx (tok s)); [reflexivity | discriminate].
Qed.

(** The manager returns through the [<-t.ctx.Done()] case only. *)
Lemma exit_step (s : System) (e : event) :
  (mgr s = None -> Ctx.done (ctx (tok s)) = true) ->
  mgr (step s e) = None -> Ctx.done (ctx (tok (step s e))) = true.
Proof.
  intros HQ. destruct (mgr s) as [m |] eqn:Hm.
  - clear HQ. destruct e as [c p | c p | cc c p | p | k]; simpl.
    + destruct (Take (tok s) c p) as [| [? ?]]; simpl; congruence.
    + destruct (Release (tok s) c p) as [| [? ?]]; simpl; congruence.
    + destruct (SetCapacity_cases s cc c p)
        as [[_ ->] | [_ [[-> _] | [[-> _] | [[-> _] | [m' [_ ->]]]]]]];
        simpl; congruence.
    + unfold manager_step, manager_iter. rewrite Hm.
      destruct (select_spec (manager_ready (tok s) m None) p)
        as [[_ ->] | [c [Hin ->]]]; [congruence |].
      apply manager_ready_In in Hin.
      destruct Hin as [[-> D] | [[-> _] | [[-> _] | [n [_ [=]]]]]]; simpl;
        try discriminate. intros _. exact D.
    + simpl. congruence.
  - intros _. apply ctx_step_done. now apply HQ.
Qed.

Lemma exit_run (es : list event) (s : System) :
  (mgr s = None -> Ctx.done (ctx (tok s)) = true) ->
  mgr (run es s) = None -> Ctx.done (ctx (tok (run es s))) = true.
Proof.
  revert s. induction es as [| e es IH]; intros s HQ; [exact HQ |].
  change (run (e :: es) s) with (run es (step s e)).
  apply IH. now apply exit_step.
Qed.

Lemma reachable_exit (s : System) :
  reachable s -> mgr s = None -> Ctx.done (ctx (tok s)) = true.
Proof.
  intros (c & maxCap & len & s0 & es & Hint & Hnew & ->).
  apply exit_run.
  destruct (Inv_NewToken c maxCap len s0 Hint Hnew) as (_ & _ & _ & _ & _ & Hm).
  congruence.
Qed.

(** X10: the manager is gone only after the lifecycle context was
    cancelled, so a [SetCapacity] call is never stuck: in every reachable
    state some case of its [select] can proceed (or its range check fails),
    and without any cancellation a call with an admissible target is
    accepted and returns nil. *)
Theorem SetCapacity_never_stuck (s : System) (cc : Ctx.t) (c : Z) (p : nat) :
  reachable s ->
  (mgr s = None -> Ctx.done (ctx (tok s)) = true) /\
  SetCapacity s cc c p <> Blocks /\
  (Ctx.done cc = false -> Ctx.done (ctx (tok s)) = false ->
   0 <= c <= maxCapacity (tok s) ->
   SetCapacity s cc c p =
   Returns (mkSystem (tok s) (Some (reconcile (tok s) c)), None)).
Proof.
  intros Hreach. pose proof (reachable_exit s Hreach) as HQ.
  split; [exact HQ |]. split.
  - destruct (SetCapacity_cases s cc c p)
      as [[_ E] | [_ [[E [_ [D N]]] | [[E _] | [[E _] | [m [_ E]]]]]]];
      rewrite E; try discriminate.
    apply HQ in N. congruence.
  - intros Hcc Hd Hc.
    destruct (SetCapacity_cases s cc c p)
      as [[Hbad _] | [_ [[_ [_ [_ N]]] | [[_ D] | [[_ D] | [m [_ E]]]]]]];
      try lia; try congruence.
    apply HQ in N. congruence.
Qed.

Lemma SetCapacity_never_stuck_witness :
  reachable (mkSystem (mkToken None (mkChan 5 10) 10 5) (Some (mkManager Buf Nil 7))) /\
  SetCapacity (mkSystem (mkToken None (mkChan 5 10) 10 5) (Some (mkManager Buf Nil 7)))
              None 3 4 <> Blocks.
Proof.
  assert (R : reachable (mkSystem (mkToken None (mkChan 5 10) 10 5)
                                  (Some (mkManager Buf Nil 7)))).
  { exists Ctx.background, 10, 5,
      (mkSystem (mkToken None (mkChan 5 10) 10 5) (Some (mkManager Nil Nil 5))),
      [ESetCapacity None 7 0].
    split; [unfold is_int, min_int, max_int; lia |]. split; reflexivity. }
  split; [exact R |].
  apply (SetCapacity_never_stuck _ None 3 4%nat R).
Defined.

Lemma frozen_step (s : System) (e : event) :
  mgr s = None ->
  mgr (step s e) = None /\ length (tok (step s e)) = length (tok s).
Proof.
  intros H. split; [now apply mgr_step_None |].
  destruct e as [c p | c p | cc c p | p | k]; simpl.
  - destruct (Take_cases (tok s) c p)
      as [[-> _] | [[-> _] | [[-> _] | [-> _]]]]; reflexivity.
  - destruct (Release_cases (tok s) c p)
      as [[-> _] | [[-> _] | [[-> _] | [-> _]]]]; reflexivity.
  - destruct (SetCapacity_cases s cc c p)
      as [[_ ->] | [_ [[-> _] | [[-> _] | [[-> _] | [m [_ ->]]]]]]]; reflexivity.
  - now rewrite manager_step_None.
  - reflexivity.
Qed.

(** X11: once the manager has returned nothing brings it back and
    [length] never changes again, whatever calls follow; no [SetCapacity]
    returns nil any more, while [Take] and [Release] still move markers in
    and out of [buf]. *)
Theorem after_manager_returned (s : System) (es : list event) :
  mgr s = None ->
  mgr (run es s) = None /\
  length (tok (run es s)) = length (tok s) /\
  (forall cc c p s', SetCapacity (run es s) cc c p <> Returns (s', None)) /\
  (can_recv (buf (tok (run es s))) = true ->
   exists p, Take (tok (run es s)) None p =
             Returns (with_buf (tok (run es s)) (recv (buf (tok (run es s)))), None)) /\
  (can_send (buf (tok (run es s))) = true ->
   exists p, Release (tok (run es s)) None p =
             Returns (with_buf (tok (run es s)) (send (buf (tok (run es s)))), None)).
Proof.
  intros H.
  assert (Hrun : mgr (run es s) = None /\ length (tok (run es s)) = length (tok s)).
  { revert s H. induction es as [| e es IH]; intros s H; [auto |].
    change (run (e :: es) s) with (run es (step s e)).
    destruct (frozen_step s e H) as [H1 H2].
    destruct (IH _ H1) as [H3 H4]. split; [exact H3 | congruence]. }
  destruct Hrun as [Hm Hl]. split; [exact Hm |]. split; [exact Hl |].
  split; [| split].
  - intros cc c p s' E. apply SetCapacity_nil in E.
    destruct E as [_ [E _]]. contradiction.
  - intros Hr.
    assert (Hin : In TakeRecv (Take_ready (tok (run es s)) None)).
    { unfold Take_ready. rewrite !in_app_iff, !In_guard. auto. }
    destruct (select_any _ _ Hin) as [p Hp]. exists p.
    unfold Take. now rewrite Hp.
  - intros Hr.
    assert (Hin : In RelSend (Release_ready (tok (run es s)) None)).
    { unfold Release_ready. rewrite !in_app_iff, !In_guard. auto. }
    destruct (select_any _ _ Hin) as [p Hp]. exists p.
    unfold Release. now rewrite Hp.
Qed.

Lemma after_manager_returned_witness :
  mgr (mkSystem (mkToken (Some "closed"%string) (mkChan 3 10) 10 5) None) = None /\
  length (tok (run [ETake None 1; ESetCapacity None 2 0; EManager 0; ERelease None 1]
                   (mkSystem (mkToken (Some "closed"%string) (mkChan 3 10) 10 5) None)))
  = 5.
Proof.
  split; [reflexivity |].
  apply (after_manager_returned
           (mkSystem (mkToken (Some "closed"%string) (mkChan 3 10) 10 5) None)
           [ETake None 1; ESetCapacity None 2 0; EManager 0; ERelease None 1]
           eq_refl).
Defined.

(** ** More on resizing *)

(** X12: asking for the target the manager already has changes nothing:
    on a reachable bucket such a [SetCapacity], once accepted, leaves the
    bucket and the manager's channel variables exactly as they were. *)
Theorem SetCapacity_same_target (s s' : System) (m : Manager) (cc : Ctx.t)
  (p : nat) :
  reachable s -> mgr s = Some m ->
  SetCapacity s cc (target m) p = Returns (s', None) ->
  s' = s.
Proof.
  intros Hreach Hm H. pose proof (reachable_Inv s Hreach) as HI.
  apply SetCapacity_nil in H. destruct H as [_ [_ ->]].
  destruct (inv_mgr s HI m Hm) as [_ <-]. destruct s. simpl in *. now subst.
Qed.

Lemma SetCapacity_same_target_witness :
  reachable (mkSystem (mkToken None (mkChan 5 10) 10 5) (Some (mkManager Buf Nil 7))) /\
  SetCapacity (mkSystem (mkToken None (mkChan 5 10) 10 5) (Some (mkManager Buf Nil 7)))
              None 7 0 =
  Returns (mkSystem (mkToken None (mkChan 5 10) 10 5) (Some (mkManager Buf Nil 7)),
           None) /\
  mkSystem (mkToken None (mkChan 5 10) 10 5) (Some (mkManager Buf Nil 7)) =
  mkSystem (mkToken None (mkChan 5 10) 10 5) (Some (mkManager Buf Nil 7)).
Proof.
  assert (R : reachable (mkSystem (mkToken None (mkChan 5 10) 10 5)
                                  (Some (mkManager Buf Nil 7)))).
  { exists Ctx.background, 10, 5,
      (mkSystem (mkToken None (mkChan 5 10) 10 5) (Some (mkManager Nil Nil 5))),
      [ESetCapacity None 7 0].
    split; [unfold is_int, min_int, max_int; lia |]. split; reflexivity. }
  split; [exact R |]. split; [reflexivity |].
  apply (SetCapacity_same_target _ _ (mkManager Buf Nil 7) None 0%nat R eq_refl).
  reflexivity.
Defined.



(** X14: a caller that holds a token can give it back.  On a reachable
    bucket on which callers hold at least one token ([len(buf) < length]),
    a [Release] with live contexts returns nil, whatever the scheduler. *)
Theorem release_of_held_token (s : System) (cc : Ctx.t) (p : nat) :
  reachable s -> Ctx.done cc = false -> Ctx.done (ctx (tok s)) = false ->
  0 < outstanding (tok s) ->
  Release (tok s) cc p = Returns (with_buf (tok s) (send (buf (tok s))), None).
Proof.
  intros Hreach Hcc Hd Ho. pose proof (reachable_Inv s Hreach) as HI.
  pose proof (inv_len s HI). pose proof (inv_cap s HI).
  unfold outstanding in Ho.
  assert (Hs : can_send (buf (tok s)) = true)
    by (unfold can_send; apply Z.ltb_lt; lia).
  unfold Release, Release_ready. rewrite Hcc, Hd, Hs.
  unfold guard. cbn [app]. now rewrite select_one.
Qed.

Lemma release_of_held_token_witness :
  reachable (mkSystem (mkToken None (mkChan 9 10) 10 10) (Some (mkManager Nil Nil 10))) /\
  Release (mkToken None (mkChan 9 10) 10 10) None 3 =
  Returns (mkToken None (mkChan 10 10) 10 10, None).
Proof.
  assert (R : reachable (mkSystem (mkToken None (mkChan 9 10) 10 10)
                                  (Some (mkManager Nil Nil 10)))).
  { exists Ctx.background, 10, 10,
      (mkSystem (mkToken None (mkChan 10 10) 10 10) (Some (mkManager Nil Nil 10))),
      [ETake None 0].
    split; [unfold is_int, min_int, max_int; lia |]. split; reflexivity. }
  split; [exact R |].
  apply (release_of_held_token _ None 3%nat R); reflexivity.
Defined.

(** ** A bucket in use *)

(** X15: take, resize, take.  On a fresh live bucket of [len] tokens let
    callers take [k] of them, let a [SetCapacity] to any [n] between [k] and
    [maxCap] be accepted, and let the manager run [|n - len|] or more
    iterations.  Then [length = n], exactly [n - k] further [Take] calls
    return nil and the next one blocks, callers holding [n] tokens in all:
    growing adds the missing tokens, shrinking withdraws the surplus. *)
Theorem take_resize_take (c cc : Ctx.t) (maxCap len k n : Z)
  (cs1 cs2 : list (Ctx.t * nat)) (p : nat) (picks : list nat) :
  0 < maxCap <= max_int -> 0 <= k <= len -> len <= maxCap -> k <= n <= maxCap ->
  Ctx.done c = false -> Ctx.done cc = false ->
  Forall (fun x => Ctx.done (fst x) = false) cs1 ->
  Z.of_nat (List.length cs1) = k ->
  Forall (fun x => Ctx.done (fst x) = false) cs2 ->
  Z.of_nat (List.length cs2) = n - k ->
  Z.abs (n - len) <= Z.of_nat (List.length picks) ->
  exists s0 t1 s2 t3,
    NewToken c maxCap len = Returns (inl s0) /\
    all_succeed (take_calls cs1) (tok s0) = Some t1 /\
    SetCapacity (mkSystem t1 (mgr s0)) cc n p = Returns (s2, None) /\
    length (tok (manager_alone picks s2)) = n /\
    all_succeed (take_calls cs2) (tok (manager_alone picks s2)) = Some t3 /\
    outstanding t3 = n /\
    (forall cc' p', Ctx.done cc' = false -> Take t3 cc' p' = Blocks).
Proof.
  intros Hmax Hk Hlen Hn Hc Hcc Hcs1 Hl1 Hcs2 Hl2 Hp.
  set (t0 := mkToken c (mkChan len maxCap) maxCap len).
  set (t1 := mkToken c (mkChan (len - k) maxCap) maxCap len).
  set (s2 := mkSystem t1 (Some (reconcile t1 n))).
  assert (HI : Inv s2).
  { split; simpl; try lia. intros m [= <-].
    rewrite reconcile_target. split; [lia | reflexivity]. }
  assert (Hconv : manager_alone picks s2 = converged t1 n).
  { rewrite (manager_converges picks s2 (reconcile t1 n) HI Hc eq_refl);
      rewrite ?reconcile_target; simpl; try lia. reflexivity. }
  exists (mkSystem t0 (Some (mkManager Nil Nil len))), t1, s2.
  eexists. split; [| split; [| split; [| split; [| split; [| split]]]]].
  - apply NewToken_valid; lia.
  - cbn [tok]. rewrite drain; simpl; try assumption; try lia.
    unfold t1, with_buf. simpl. now rewrite Hl1.
  - unfold SetCapacity, SetCapacity_ready. cbn [tok mgr maxCapacity t1 ctx].
    rewrite Hcc, Hc.
    destruct (Z.ltb_spec maxCap n); [lia |].
    destruct (Z.ltb_spec n 0); [lia |].
    unfold guard. cbn [app orb]. rewrite select_one. reflexivity.
  - rewrite Hconv. reflexivity.
  - rewrite Hconv. cbn [tok converged].
    apply drain; simpl; [exact Hc | exact Hcs2 | lia].
  - unfold outstanding. simpl. lia.
  - intros cc' p' Hcc'. rewrite Take_live by assumption.
    unfold can_recv. simpl.
    destruct (Z.ltb_spec 0 (len - k + (n - len) - Z.of_nat (List.length cs2)));
      [lia | reflexivity].
Qed.

Lemma take_resize_take_witness :
  exists s0 t1 s2 t3,
    NewToken Ctx.background 10 2 = Returns (inl s0) /\
    all_succeed (take_calls [(None, 0%nat); (None, 0%nat)]) (tok s0) = Some t1 /\
    SetCapacity (mkSystem t1 (mgr s0)) None 4 0 = Returns (s2, None) /\
    length (tok (manager_alone [0; 0]%nat s2)) = 4 /\
    all_succeed (take_calls [(None, 1%nat); (None, 2%nat)])
                (tok (manager_alone [0; 0]%nat s2)) = Some t3 /\
    outstanding t3 = 4 /\
    (forall cc' p', Ctx.done cc' = false -> Take t3 cc' p' = Blocks).
Proof.
  apply (take_resize_take Ctx.background None 10 2 2 4
           [(None, 0%nat); (None, 0%nat)] [(None, 1%nat); (None, 2%nat)]
           0%nat [0; 0]%nat);
    try reflexivity; try (repeat constructor);
    try (unfold max_int; simpl; lia).
Defined.

Lemma outstanding_taken_by (s : System) (e : event) :
  Inv s -> outstanding (tok (step s e)) = outstanding (tok s) + taken_by s e.
Proof.
  intros HI. destruct e as [c p | c p | cc c p | p | k].
  - cbn [step taken_by].
    destruct (Take_cases (tok s) c p) as [[E _] | [[E D] | [[E D] | [E _]]]];
      rewrite E; cbn [on_token tok].
    + lia.
    + destruct (Cause c) eqn:C; [lia | now apply Cause_done in D].
    + destruct (Cause (ctx (tok s))) eqn:C; [lia | now apply Cause_done in D].
    + unfold outstanding. simpl. lia.
  - cbn [step taken_by].
    destruct (Release_cases (tok s) c p) as [[E _] | [[E D] | [[E D] | [E _]]]];
      rewrite E; cbn [on_token tok].
    + lia.
    + destruct (Cause c) eqn:C; [lia | now apply Cause_done in D].
    + destruct (Cause (ctx (tok s))) eqn:C; [lia | now apply Cause_done in D].
    + unfold outstanding. simpl. lia.
  - rewrite outstanding_step by (assumption || reflexivity). simpl. lia.
  - rewrite outstanding_step by (assumption || reflexivity). simpl. lia.
  - rewrite outstanding_step by (assumption || reflexivity). simpl. lia.
Qed.

(** X16: the manager's counter accounts for every token.  Along every
    interleaving after a successful [NewToken], [length] equals the number
    of markers in [buf] plus the [Take] calls that returned nil minus the
    [Release] calls that returned nil, whatever resizing went on. *)
Theorem length_accounts_for_tokens (c : Ctx.t) (maxCap len : Z) (s0 : System)
  (es : list event) :
  is_int maxCap ->
  NewToken c maxCap len = Returns (inl s0) ->
  length (tok (run es s0)) = qlen (buf (tok (run es s0))) + net_taken es s0.
Proof.
  intros Hint Hnew.
  destruct (Inv_NewToken c maxCap len s0 Hint Hnew) as (HI & _ & Hl & Hq & _).
  assert (H0 : outstanding (tok s0) = 0) by (unfold outstanding; lia).
  assert (H : forall es s, Inv s ->
            outstanding (tok (run es s)) = outstanding (tok s) + net_taken es s).
  { clear. induction es as [| e es IH]; intros s HI; [simpl; lia |].
    change (run (e :: es) s) with (run es (step s e)).
    rewrite IH by now apply Inv_step.
    rewrite outstanding_taken_by by exact HI. simpl. lia. }
  specialize (H es s0 HI). unfold outstanding in H at 1. unfold outstanding in H0.
  unfold outstanding in H. lia.
Qed.

Lemma length_accounts_for_tokens_witness :
  is_int 10 /\
  NewToken Ctx.background 10 5 =
  Returns (inl (mkSystem (mkToken None (mkChan 5 10) 10 5)
                         (Some (mkManager Nil Nil 5)))) /\
  length (tok (run [ETake None 0; ESetCapacity None 2 0; EManager 0;
                    ERelease None 0; EManager 0; ETake None 0]
                   (mkSystem (mkToken None (mkChan 5 10) 10 5)
                             (Some (mkManager Nil Nil 5))))) =
  qlen (buf (tok (run [ETake None 0; ESetCapacity None 2 0; EManager 0;
                       ERelease None 0; EManager 0; ETake None 0]
                      (mkSystem (mkToken None (mkChan 5 10) 10 5)
                                (Some (mkManager Nil Nil 5)))))) +
  net_taken [ETake None 0; ESetCapacity None 2 0; EManager 0;
             ERelease None 0; EManager 0; ETake None 0]
            (mkSystem (mkToken None (mkChan 5 10) 10 5)
                      (Some (mkManager Nil Nil 5))).
Proof.
  assert (Hint : is_int 10) by (unfold is_int, min_int, max_int; lia).
  split; [exact Hint |]. split; [reflexivity |].
  apply (length_accounts_for_tokens Ctx.background 10 5
           (mkSystem (mkToken None (mkChan 5 10) 10 5) (Some (mkManager Nil Nil 5)))
           [ETake None 0; ESetCapacity None 2 0; EManager 0;
            ERelease None 0; EManager 0; ETake None 0] Hint).
  reflexivity.
Defined.

(** X17: [SetCapacity] only records the request.  When it returns nil the
    target was admissible, the manager has it as its new [target], and
    neither [length] nor [buf] has moved yet; the manager is left willing to
    insert when the new target is above [length], to remove when it is
    below, and to do neither when they are equal. *)
Theorem SetCapacity_is_asynchronous (s s' : System) (cc : Ctx.t) (c : Z)
  (p : nat) :
  SetCapacity s cc c p = Returns (s', None) ->
  0 <= c <= maxCapacity (tok s) /\
  tok s' = tok s /\
  exists m', mgr s' = Some m' /\ target m' = c /\
             mode m' = Some (Spec.state_of c (length (tok s))).
Proof.
  intros H. apply SetCapacity_nil in H. destruct H as [Hc [_ ->]].
  split; [exact Hc |]. split; [reflexivity |].
  eexists. split; [reflexivity |]. split.
  - apply reconcile_target.
  - apply mode_reconcile.
Qed.

Lemma SetCapacity_is_asynchronous_witness :
  SetCapacity (mkSystem (mkToken None (mkChan 0 10) 10 5) (Some (mkManager Nil Nil 5)))
              None 2 0 =
  Returns (mkSystem (mkToken None (mkChan 0 10) 10 5) (Some (mkManager Nil Buf 2)),
           None) /\
  tok (mkSystem (mkToken None (mkChan 0 10) 10 5) (Some (mkManager Nil Buf 2))) =
  tok (mkSystem (mkToken None (mkChan 0 10) 10 5) (Some (mkManager Nil Nil 5))).
Proof.
  split; [reflexivity |].
  apply (SetCapacity_is_asynchronous
           (mkSystem (mkToken None (mkChan 0 10) 10 5) (Some (mkManager Nil Nil 5)))
           (mkSystem (mkToken None (mkChan 0 10) 10 5) (Some (mkManager Nil Buf 2)))
           None 2 0%nat).
  reflexivity.
Defined.
